(** * BinaryHeap: an async-comparator priority queue (src/binary_heap.ts)

    A shallow embedding of the TypeScript class [BinaryHeap] and of the
    properties stated about it.

    - JavaScript arrays are lists, indexed by integers ([Z]); the index
      arithmetic of the source ([Math.floor((index + 1) / 2) - 1],
      [2 * (parent + 1)]) is kept on [Z].
    - A settled [Promise<number>] is a value of [promise Z]: the comparator is
      a function to [promise Z], it is fulfilled with an integer or rejected
      with an exception.  The class only tests the answer with [< 0] and
      [<= 0]; a [NaN] fails both tests, as a positive answer does.
      Comparisons are awaited one after the other, so a method body is a
      sequential program over the backing array.
    - A method body runs in the monad [M]: it threads the contents of
      [this.#data] and ends normally or by a throw, keeping the array as it
      was at the throw (arrays are mutated in place).
    - Heap objects and their arrays live in a store ([Module Obj]): a heap
      object holds a reference to its array, [clear] and [from] allocate new
      arrays. *)

From Stdlib Require Import ZArith Lia String.
From stdpp Require Import base option list list_numbers sorting gmap.

Local Open Scope Z_scope.

(** ** Exceptions, promises and completions *)

(** What a [throw] carries: a [TypeError] (of the constructor, or of the
    spread in [from]), or whatever the caller's comparator or map function
    raised. *)
Inductive exn (E : Type) : Type :=
| TypeError (msg : string)
| Raised (e : E).
Arguments TypeError {E} msg.
Arguments Raised {E} e.

(** A settled promise. *)
Inductive promise (E A : Type) : Type :=
| Fulfilled (a : A)
| Rejected (e : exn E).
Arguments Fulfilled {E A} a.
Arguments Rejected {E A} e.

(** How the evaluation of a method body ends.  [Wrong] marks the two things
    the source cannot do but a model could: reading or writing an array slot
    that does not exist, and a loop that has used up its iteration bound.
    [pop_wp] and [push_wp] below show that no method ends in [Wrong]. *)
Inductive completion (E A : Type) : Type :=
| Normal (a : A)
| Throw (e : exn E)
| Wrong.
Arguments Normal {E A} a.
Arguments Throw {E A} e.
Arguments Wrong {E A}.

(** The result of [next()] on an iterator. *)
Inductive IteratorResult (A : Type) : Type :=
| Done
| Yield (value : A).
Arguments Done {A}.
Arguments Yield {A} value.

(** ** Arrays *)

Section Arrays.
Context {T : Type}.

(** [array.length] *)
Definition len (array : list T) : Z := Z.of_nat (length array).

(** [array[i]]; [None] is JavaScript's [undefined] of a missing slot. *)
Definition get (array : list T) (i : Z) : option T :=
  if 0 <=? i then array !! Z.to_nat i else None.

(** [array[i] = v] for an existing slot. *)
Definition set (array : list T) (i : Z) (v : T) : list T :=
  if 0 <=? i then <[Z.to_nat i := v]> array else array.

(** [function swap(array, a, b)]: [temp = array[a]; array[a] = array[b];
    array[b] = temp].  The result is [None] when a slot is missing, which
    no call of the class does. *)
Definition swap (array : list T) (a b : Z) : option (list T) :=
  match get array a, get array b with
  | Some temp, Some y => Some (set (set array a y) b temp)
  | _, _ => None
  end.

(** [function getParentIndex(index)]; [Z]'s division rounds down, as
    [Math.floor] does. *)
Definition getParentIndex (index : Z) : Z := (index + 1) / 2 - 1.

End Arrays.

(** ** The monad of method bodies *)

Section Monad.
Context {S E : Type}.

(** A computation over a state [S]: the contents of [this.#data] for a
    method body, the store of objects for a program that uses several
    heaps. *)
Definition M (A : Type) : Type := S -> completion E A * S.

Definition ret {A} (a : A) : M A := fun s => (Normal a, s).

Definition bind {A B} (m : M A) (f : A -> M B) : M B :=
  fun s =>
    match m s with
    | (Normal a, s') => f a s'
    | (Throw e, s') => (Throw e, s')
    | (Wrong, s') => (Wrong, s')
    end.

Definition wrong {A} : M A := fun s => (Wrong, s).

Definition throw {A} (e : exn E) : M A := fun s => (Throw e, s).

(** [await p]: the value of a fulfilled promise, a throw for a rejected
    one. *)
Definition await {A} (p : promise E A) : M A :=
  fun s =>
    match p with
    | Fulfilled a => (Normal a, s)
    | Rejected e => (Throw e, s)
    end.

End Monad.
Arguments M : clear implicits.

Section ArrayState.
Context {T E : Type}.
Local Abbreviation M := (M (list T) E).

(** [this.#data.length] *)
Definition data_length : M Z := fun d => (Normal (len d), d).

(** [this.#data[i]!] *)
Definition read (i : Z) : M T :=
  fun d =>
    match get d i with
    | Some x => (Normal x, d)
    | None => (Wrong, d)
    end.

(** [swap(this.#data, a, b)] *)
Definition swap_data (a b : Z) : M unit :=
  fun d =>
    match swap d a b with
    | Some d' => (Normal tt, d')
    | None => (Wrong, d)
    end.

(** [this.#data.push(value)] *)
Definition data_push (value : T) : M unit :=
  fun d => (Normal tt, d ++ [value]).

(** [this.#data.pop()]: removes the last slot and returns what it held,
    [undefined] ([None]) for an empty array. *)
Definition data_pop : M (option T) :=
  fun d =>
    match last d with
    | Some x => (Normal (Some x), take (pred (length d)) d)
    | None => (Normal None, d)
    end.

End ArrayState.

Notation "'do' x <- m ; k" := (bind m (fun x => k))
  (at level 10, x name, m at level 100, k at level 200).

(** ** The methods of [BinaryHeap], as programs over [this.#data] *)

Section Methods.
Context {T E : Type}.

(** [this.#compare], fixed when the heap is constructed. *)
Variable compare : T -> T -> promise E Z.

Local Abbreviation M := (M (list T) E).

(** [toArray()]: [Array.from(this.#data)]. *)
Definition toArray : M (list T) := fun d => (Normal d, d).

(** [get length()] *)
Definition length_ : M Z := data_length.

(** [peek()] *)
Definition peek : M (option T) := fun d => (Normal (get d 0), d).

(** [isEmpty()] *)
Definition isEmpty : M bool :=
  do n <- data_length; ret (n =? 0).

(** The [while (index !== 0)] loop of [push]; one unit of [fuel] per
    iteration. *)
Fixpoint push_while (fuel : nat) (index parent : Z) : M unit :=
  if negb (index =? 0) then
    match fuel with
    | O => wrong
    | S fuel =>
        do x <- read index;
        do p <- read parent;
        do comparison <- await (compare x p);
        if comparison <? 0 then
          do _ <- swap_data parent index;
          let index := parent in
          let parent := getParentIndex index in
          push_while fuel index parent
        else ret tt
    end
  else ret tt.

(** The body of [for (const value of values)] in [push]. *)
Definition push_value (value : T) : M unit :=
  do index <- data_length;
  let parent := getParentIndex index in
  do _ <- data_push value;
  push_while (Z.to_nat index) index parent.

Fixpoint push_for (values : list T) : M unit :=
  match values with
  | [] => ret tt
  | value :: values => do _ <- push_value value; push_for values
  end.

(** [async push(...values)] *)
Definition push (values : list T) : M Z :=
  do _ <- push_for values; data_length.

(** The choice of [greatestChild] in [pop]: [||] does not evaluate the
    comparison when [right >= size]. *)
Definition greatestChild (size left right : Z) : M Z :=
  if size <=? right then ret left
  else
    do l <- read left;
    do r <- read right;
    do c <- await (compare l r);
    ret (if c <=? 0 then left else right).

(** The [while (left < size)] loop of [pop]. *)
Fixpoint pop_while (fuel : nat) (size parent right left : Z) : M unit :=
  if left <? size then
    match fuel with
    | O => wrong
    | S fuel =>
        do greatest <- greatestChild size left right;
        do g <- read greatest;
        do p <- read parent;
        do c <- await (compare g p);
        if c <? 0 then
          do _ <- swap_data parent greatest;
          let parent := greatest in
          let right := 2 * (parent + 1) in
          let left := right - 1 in
          pop_while fuel size parent right left
        else ret tt
    end
  else ret tt.

(** [async pop()] *)
Definition pop : M (option T) :=
  do n <- data_length;
  if n =? 0 then ret None
  else
    let size := n - 1 in
    do _ <- swap_data 0 size;
    let parent := 0 in
    let right := 2 * (parent + 1) in
    let left := right - 1 in
    do _ <- pop_while (Z.to_nat size) size parent right left;
    data_pop.

(** One [next()] of the generator [drain()]: the loop test, then
    [yield await this.pop() as T]. *)
Definition drain_next : M (IteratorResult T) :=
  do empty <- isEmpty;
  if empty then ret Done
  else
    do value <- pop;
    match value with
    | Some v => ret (Yield v)
    | None => wrong
    end.

(** [[Symbol.asyncIterator]()]: [yield* this.drain()] hands every [next()]
    to the generator of [drain]. *)
Definition asyncIterator_next : M (IteratorResult T) := drain_next.

(** [for await (const value of iterator) out.push(value)]: the values an
    iterator yields until it is done. *)
Fixpoint for_await (fuel : nat) (next : M (IteratorResult T)) : M (list T) :=
  match fuel with
  | O => wrong
  | S fuel =>
      do r <- next;
      match r with
      | Done => ret []
      | Yield v => do vs <- for_await fuel next; ret (v :: vs)
      end
  end.

(** The values of [drain()], consumed to its end. *)
Definition drain : M (list T) :=
  do n <- data_length; for_await (S (Z.to_nat n)) drain_next.

(** The values of the heap's own async iteration. *)
Definition asyncIterator : M (list T) :=
  do n <- data_length; for_await (S (Z.to_nat n)) asyncIterator_next.

End Methods.

(** ** The default comparator *)

(** Modelled from the spec: the default ordering [descend], which the
    class imports from [jsr:@std/data-structures] and which is not among the
    sources: "descending natural order", so that the default heap is a
    max-heap.  It is the library's [a < b ? 1 : a > b ? -1 : 0], over the
    [<] of the elements ([less]). *)
Definition descend {T} (less : T -> T -> bool) (a b : T) : Z :=
  if less a b then 1 else if less b a then -1 else 0.

(** Modelled from the spec: [ascend] of the same library, the
    "ascending-order comparator" of the scenarios:
    [a < b ? -1 : a > b ? 1 : 0]. *)
Definition ascend {T} (less : T -> T -> bool) (a b : T) : Z :=
  if less a b then -1 else if less b a then 1 else 0.

(** ** Heap objects in a store *)

(** The outcome of a call of the caller's [map] function. *)
Inductive result (E A : Type) : Type :=
| Return (a : A)
| Raise (e : exn E).
Arguments Return {E A} a.
Arguments Raise {E A} e.

Module Obj.
Section Store.
Context {T E V : Type}.

(** [<] on the elements, for the default comparator. *)
Variable less : T -> T -> bool.

(** References to arrays and to heap objects. *)
Definition loc : Type := positive.

(** The private fields of a [BinaryHeap]: [#data] refers to an array,
    [#compare] is the comparator. *)
Record BinaryHeap : Type := {
  data : loc;
  compare : T -> T -> promise E Z
}.

(** The arrays and the heap objects that exist. *)
Record store : Type := {
  arrays : gmap loc (list T);
  heaps : gmap loc BinaryHeap
}.

Local Abbreviation St := (M store E).

(** A new array with the given contents: [[]], [Array.from(...)]. *)
Definition new_array (contents : list T) : St loc :=
  fun s =>
    let a := fresh (dom (arrays s)) in
    (Normal a, {| arrays := <[a := contents]> (arrays s); heaps := heaps s |}).

(** A new heap object. *)
Definition new_heap (h : BinaryHeap) : St loc :=
  fun s =>
    let l := fresh (dom (heaps s)) in
    (Normal l, {| arrays := arrays s; heaps := <[l := h]> (heaps s) |}).

(** The fields of the heap [this]. *)
Definition fields (this : loc) : St BinaryHeap :=
  fun s =>
    match heaps s !! this with
    | Some h => (Normal h, s)
    | None => (Wrong, s)
    end.

(** The elements of the array [a], in order. *)
Definition elements (a : loc) : St (list T) :=
  fun s =>
    match arrays s !! a with
    | Some d => (Normal d, s)
    | None => (Wrong, s)
    end.

(** [this.#data = a] *)
Definition set_data (this a : loc) : St unit :=
  fun s =>
    match heaps s !! this with
    | Some h =>
        (Normal tt,
         {| arrays := arrays s;
            heaps := <[this := {| data := a; compare := compare h |}]> (heaps s) |})
    | None => (Wrong, s)
    end.

(** A method call on [this]: its body runs on the array [this.#data]
    refers to, with [this.#compare]; the array is updated in place. *)
Definition method {A} (this : loc)
    (body : (T -> T -> promise E Z) -> M (list T) E A) : St A :=
  fun s =>
    match heaps s !! this with
    | Some h =>
        match arrays s !! data h with
        | Some d =>
            let (r, d') := body (compare h) d in
            (r, {| arrays := <[data h := d']> (arrays s); heaps := heaps s |})
        | None => (Wrong, s)
        end
    | None => (Wrong, s)
    end.

(** A JavaScript value passed where the comparator is expected. *)
Inductive value : Type :=
| Undefined
| Null
| Boolean (b : bool)
| Number (n : Z)
| String (s : string)
| Object
| Function (f : T -> T -> promise E Z).

Definition typeof (v : value) : string :=
  match v with
  | Undefined => "undefined"
  | Null => "object"
  | Boolean _ => "boolean"
  | Number _ => "number"
  | String _ => "string"
  | Object => "object"
  | Function _ => "function"
  end.

(** The default value of the parameter [compare]:
    [async (a, b) => descend(a, b)]. *)
Definition default_compare : T -> T -> promise E Z :=
  fun a b => Fulfilled (descend less a b).

Definition not_a_function : string :=
  "Cannot construct a BinaryHeap: the 'compare' parameter is not a function, did you mean to call BinaryHeap.from?".

(** [new BinaryHeap(compare)].  The default of a parameter is used when
    the argument is missing or [undefined]; the field initialiser
    [#data = []] runs before the body of the constructor. *)
Definition constructor (compare : value) : St loc :=
  let compare :=
    match compare with
    | Undefined => Function default_compare
    | _ => compare
    end in
  do data <- new_array [];
  if negb (String.eqb (typeof compare) "function") then
    throw (TypeError not_a_function)
  else
    match compare with
    | Function f => new_heap {| data := data; compare := f |}
    | _ => wrong
    end.

(** [toArray()] *)
Definition toArray (this : loc) : St (list T) :=
  method this (fun _ => toArray).

(** [get length()] *)
Definition length (this : loc) : St Z := method this (fun _ => length_).

(** [peek()] *)
Definition peek (this : loc) : St (option T) := method this (fun _ => peek).

(** [pop()] *)
Definition pop (this : loc) : St (option T) := method this pop.

(** [push(...values)] *)
Definition push (this : loc) (values : list T) : St Z :=
  method this (fun compare => push compare values).

(** [clear()]: [this.#data = []] *)
Definition clear (this : loc) : St unit :=
  do a <- new_array []; set_data this a.

(** [isEmpty()] *)
Definition isEmpty (this : loc) : St bool := method this (fun _ => isEmpty).

(** The values of [drain()], consumed to its end. *)
Definition drain (this : loc) : St (list T) := method this drain.

(** The values of the heap's own async iteration. *)
Definition asyncIterator (this : loc) : St (list T) :=
  method this asyncIterator.

(** The options of [from]. *)
Record Options : Type := {
  opt_compare : option (T -> T -> promise E Z);
  opt_map : option (option V -> T -> Z -> result E T);
  opt_thisArg : option V
}.

(** The first argument of [from], of type
    [ArrayLike<T> | Iterable<T> | BinaryHeap<T>]: an iterable, given by the
    elements its iterator yields (an array is one); a heap; or an array-like
    object that is not iterable, such as [{ length: 2, 0: x, 1: y }], given
    by the elements at its indices below [length]. *)
Inductive collection : Type :=
| Items (items : list T)
| Heap (h : loc)
| ArrayLike (items : list T).

(** A value of type [ArrayLike<T> | Iterable<T>], as [unmappedValues] is:
    an iterable, or an object with a [length] and indexed elements only. *)
Inductive sequence : Type :=
| Iterable (items : list T)
| Indexed (items : list T).

(** The elements that [Array.from] reads from a sequence: through its
    iterator when it has one, by [length] and index otherwise. *)
Definition sequence_items (values : sequence) : list T :=
  match values with
  | Iterable items => items
  | Indexed items => items
  end.

(** The message of the [TypeError] of a spread; the language fixes the class
    of the error, the text is the one of V8. *)
Definition not_iterable : string :=
  "Spread syntax requires ...iterable[Symbol.iterator] to be a function".

(** [...values] in the arguments of a call: the elements that the iterator
    of [values] yields, a [TypeError] when [values] has no
    [Symbol.iterator] method. *)
Definition spread (values : sequence) : St (list T) :=
  match values with
  | Iterable items => ret items
  | Indexed _ => throw (TypeError not_iterable)
  end.

(** [Array.from(items, mapFn, thisArg)]: [mapFn] is called on each element
    and its index [k], with [thisArg] as receiver. *)
Fixpoint Array_from (mapFn : option V -> T -> Z -> result E T)
    (thisArg : option V) (items : list T) (k : Z) : St (list T) :=
  match items with
  | [] => ret []
  | x :: items =>
      match mapFn thisArg x k with
      | Return y =>
          do ys <- Array_from mapFn thisArg items (k + 1); ret (y :: ys)
      | Raise e => throw e
      end
  end.

(** [static async from(collection, options)].  Without [map], [values] is
    [unmappedValues] itself ([as U[]] is a cast, nothing is converted); with
    [map] it is the array that [Array.from] makes. *)
Definition from (collection : collection) (options : option Options) : St loc :=
  let options_compare := options ≫= opt_compare in
  let options_map := options ≫= opt_map in
  let options_thisArg := options ≫= opt_thisArg in
  do ru <-
    match collection with
    | Heap c =>
        do ch <- fields c;
        do result <-
          constructor (Function (default (compare ch) options_compare));
        if bool_decide (is_Some options_compare)
           || bool_decide (is_Some options_map) then
          do unmappedValues <- elements (data ch);
          ret (result, Iterable unmappedValues)
        else
          do items <- elements (data ch);
          do copy <- new_array items;
          do _ <- set_data result copy;
          ret (result, Iterable [])
    | Items items =>
        do result <-
          match options_compare with
          | Some f => constructor (Function f)
          | None => constructor Undefined
          end;
        ret (result, Iterable items)
    | ArrayLike items =>
        do result <-
          match options_compare with
          | Some f => constructor (Function f)
          | None => constructor Undefined
          end;
        ret (result, Indexed items)
    end;
  let result := ru.1 in
  let unmappedValues := ru.2 in
  do values <-
    match options_map with
    | Some mapFn =>
        do array <-
          Array_from mapFn options_thisArg (sequence_items unmappedValues) 0;
        ret (Iterable array)
    | None => ret unmappedValues
    end;
  do arguments <- spread values;
  do _ <- push result arguments;
  ret result.

(** What [toArray] would return for [this], if the heap exists. *)
Definition contents (s : store) (this : loc) : option (list T) :=
  h ← heaps s !! this; arrays s !! data h.

(** A call that changes a heap. *)
Inductive mutation : Type :=
| MPush (values : list T)
| MPop
| MClear.

Definition mutate (this : loc) (m : mutation) : St unit :=
  match m with
  | MPush values => do _ <- push this values; ret tt
  | MPop => do _ <- pop this; ret tt
  | MClear => clear this
  end.

Fixpoint mutates (this : loc) (ms : list mutation) : St unit :=
  match ms with
  | [] => ret tt
  | m :: ms => do _ <- mutate this m; mutates this ms
  end.

(** The values pushed one by one: [push(v)] for each [v] in turn. *)
Fixpoint push_each (this : loc) (values : list T) : St unit :=
  match values with
  | [] => ret tt
  | v :: values => do _ <- push this [v]; push_each this values
  end.

(** The array [a] with new contents. *)
Definition with_array (s : store) (a : loc) (d : list T) : store :=
  {| arrays := <[a := d]> (arrays s); heaps := heaps s |}.

(** The store before any heap is made. *)
Definition empty_store : store := {| arrays := ∅; heaps := ∅ |}.

End Store.
End Obj.

(** ** Stores after a construction and after a copy *)

Section StoreNotions.
Context {T E : Type}.
Implicit Types (s : Obj.store (T := T) (E := E)) (d : list T).

(** The store after [new BinaryHeap(f)] for a function [f]. *)
Definition constructed s (f : T -> T -> promise E Z) : Obj.store :=
  {| Obj.arrays := <[fresh (dom (Obj.arrays s)) := []]> (Obj.arrays s);
     Obj.heaps :=
       <[fresh (dom (Obj.heaps s)) :=
           {| Obj.data := fresh (dom (Obj.arrays s)); Obj.compare := f |}]>
         (Obj.heaps s) |}.

(** Two heaps that exist and do not share their array. *)
Definition separate s (a b : Obj.loc) : Prop :=
  a <> b /\
  exists ha hb da db,
    Obj.heaps s !! a = Some ha /\ Obj.heaps s !! b = Some hb /\
    Obj.data ha <> Obj.data hb /\
    Obj.arrays s !! Obj.data ha = Some da /\
    Obj.arrays s !! Obj.data hb = Some db.

(** The store after [from(src)] without [compare] and [map], for a heap
    [src] with the fields [h] and the elements [d]. *)
Definition copied s (h : Obj.BinaryHeap) d : Obj.store :=
  let s1 := constructed s (Obj.compare h) in
  let a2 := fresh (dom (Obj.arrays s1)) in
  {| Obj.arrays := <[a2 := d]> (Obj.arrays s1);
     Obj.heaps :=
       <[fresh (dom (Obj.heaps s)) :=
           {| Obj.data := a2; Obj.compare := Obj.compare h |}]>
         (Obj.heaps s1) |}.

End StoreNotions.

(** ** Ownership of the arrays, and programs that use several heaps *)

Section Ownership.
Context {T E V : Type}.
Implicit Types (s : Obj.store (T := T) (E := E)).

(** Every heap object has its array, and no two heap objects refer to the
    same array. *)
Definition owns_arrays s : Prop :=
  (forall l h, Obj.heaps s !! l = Some h ->
     is_Some (Obj.arrays s !! Obj.data h)) /\
  (forall l1 l2 h1 h2,
     Obj.heaps s !! l1 = Some h1 -> Obj.heaps s !! l2 = Some h2 ->
     Obj.data h1 = Obj.data h2 -> l1 = l2).

(** The values that [from] inserts for the source elements [items]: the
    elements themselves without a [map] option, the results of the
    transform on each element and its index otherwise. *)
Definition transformed
    (map : option (option V -> T -> Z -> result E T)) (thisArg : option V)
    (items values : list T) : Prop :=
  match map with
  | None => values = items
  | Some mapFn =>
      length values = length items /\
      forall (i : nat) x, items !! i = Some x ->
        exists y, mapFn thisArg x (Z.of_nat i) = Return y /\
                  values !! i = Some y
  end.

(** The end of [from] when the values are pushed one at a time: the values
    are transformed, pushed into the new heap [this], and [this] is
    returned. *)
Definition rebuild (map : option (option V -> T -> Z -> result E T))
    (thisArg : option V) (items : list T) (this : Obj.loc) :
    M (Obj.store (T := T) (E := E)) E Obj.loc :=
  do values <-
    match map with
    | Some mapFn => Obj.Array_from mapFn thisArg items 0
    | None => ret items
    end;
  do _ <- Obj.push this values;
  ret this.

(** The store with one more, unused, array: what a failed construction
    leaves. *)
Definition with_new_array s : Obj.store (T := T) (E := E) :=
  {| Obj.arrays := <[fresh (dom (Obj.arrays s)) := []]> (Obj.arrays s);
     Obj.heaps := Obj.heaps s |}.

(** A call of the public interface of the class. *)
Inductive call : Type :=
| New (compare : Obj.value (T := T) (E := E))
| From (collection : Obj.collection (T := T))
       (options : option (Obj.Options (T := T) (E := E) (V := V)))
| Change (this : Obj.loc) (m : Obj.mutation (T := T))
| Drain (this : Obj.loc).

Definition run_call (less : T -> T -> bool) (c : call) : M Obj.store E unit :=
  match c with
  | New compare => do _ <- Obj.constructor less compare; ret tt
  | From collection options => do _ <- Obj.from less collection options; ret tt
  | Change this m => Obj.mutate this m
  | Drain this => do _ <- Obj.drain this; ret tt
  end.

(** The calls one after the other; the program goes on after a call that
    threw, as a caller that catches the exception does. *)
Fixpoint run_calls (less : T -> T -> bool) (cs : list call)
    (s : Obj.store (T := T) (E := E)) : Obj.store :=
  match cs with
  | [] => s
  | c :: cs => run_calls less cs (run_call less c s).2
  end.

End Ownership.

(** ** The values of the examples *)

(** The default comparator on integers, and the ascending one. *)
Definition descending : Z -> Z -> promise unit Z :=
  fun a b => Fulfilled (descend Z.ltb a b).

Definition ascending : Z -> Z -> promise unit Z :=
  fun a b => Fulfilled (ascend Z.ltb a b).

(** A comparator that always answers "nearer the root". *)
Definition always_negative : Z -> Z -> promise unit Z :=
  fun _ _ => Fulfilled (-1).

(** A comparator that always fails. *)
Definition always_rejects : Z -> Z -> promise unit Z :=
  fun _ _ => Rejected (Raised tt).

(** A comparator that is not transitive: [3] is nearer the root than [0],
    every other pair compares equal. *)
Definition three_before_zero : Z -> Z -> promise unit Z :=
  fun a b => Fulfilled (if (a =? 3) && (b =? 0) then -1 else 0).

(** The default comparator, but failing when [4] is compared with [1]. *)
Definition rejects_4_1 : Z -> Z -> promise unit Z :=
  fun a b =>
    if (a =? 4) && (b =? 1) then Rejected (Raised tt)
    else Fulfilled (descend Z.ltb a b).

(** The default comparator, but failing when [x] is compared with [y]. *)
Definition rejects_pair (x y : Z) : Z -> Z -> promise unit Z :=
  fun a b =>
    if (a =? x) && (b =? y) then Rejected (Raised tt)
    else Fulfilled (descend Z.ltb a b).

Definition rejects_6_3 : Z -> Z -> promise unit Z := rejects_pair 6 3.

Definition rejects_5_4 : Z -> Z -> promise unit Z := rejects_pair 5 4.

(** Points compared by their first coordinate only, as in the tests. *)
Definition by_x : (Z * Z) -> (Z * Z) -> promise unit Z :=
  fun a b => Fulfilled (ascend Z.ltb a.1 b.1).

(** The options of the second scenario: [{ map: n => n * 2 }]. *)
Definition double_options : Obj.Options (T := Z) (E := unit) (V := unit) :=
  {| Obj.opt_compare := None;
     Obj.opt_map := Some (fun _ n _ => Return (n * 2));
     Obj.opt_thisArg := None |}.

(** [{ map: v => v }] *)
Definition identity_options : Obj.Options (T := Z) (E := unit) (V := unit) :=
  {| Obj.opt_compare := None;
     Obj.opt_map := Some (fun _ v _ => Return v);
     Obj.opt_thisArg := None |}.

(** The class [MyMath] of the tests, used as [thisArg]. *)
Record MyMath : Type := { multiply : Z -> Z -> Z }.

Definition math : MyMath := {| multiply := Z.mul |}.

(** [{ map: function (v) { return this.multiply(3, v) }, thisArg: math }];
    without a receiver, [this.multiply] is a [TypeError]. *)
Definition triple_options : Obj.Options (T := Z) (E := unit) (V := MyMath) :=
  {| Obj.opt_compare := None;
     Obj.opt_map :=
       Some (fun this v _ =>
               match this with
               | Some m => Return (multiply m 3 v)
               | None => Raise (TypeError "this is undefined")
               end);
     Obj.opt_thisArg := Some math |}.

(** A store with one heap, made by [new BinaryHeap()] and
    [push(2, 4, 3, 5, 1)]. *)
Definition store_with_heap : Obj.store (T := Z) (E := unit) :=
  ((do h <- Obj.constructor Z.ltb Obj.Undefined; Obj.push h [2; 4; 3; 5; 1])
     Obj.empty_store).2.

(** ** The heap property and the other notions of the statements *)

Section Notions.
Context {T E : Type}.
Variable compare : T -> T -> promise E Z.

(** [compare(a, b)] does not yield a strictly negative result: [a] is not
    strictly nearer the root than [b]. *)
Definition not_negative (a b : T) : Prop :=
  forall z, compare a b = Fulfilled z -> 0 <= z.

(** The heap property: for every non-root index [i] with parent [p],
    [compare(data[i], data[p])] is never strictly negative. *)
Definition heap_property (d : list T) : Prop :=
  forall i x p, 0 < i -> get d i = Some x ->
    get d (getParentIndex i) = Some p -> not_negative x p.

(** The same, as a test that can be run: the comparison of the slot [i]
    with its parent is not a negative number. *)
Definition negative (answer : promise E Z) : bool :=
  match answer with
  | Fulfilled z => z <? 0
  | Rejected _ => false
  end.

Definition in_order_at (d : list T) (i : Z) : bool :=
  match get d i, get d (getParentIndex i) with
  | Some x, Some p => negb (negative (compare x p))
  | _, _ => true
  end.

Definition heap_propertyb (d : list T) : bool :=
  forallb (in_order_at d) (seqZ 1 (len d - 1)).

(** The heap property of the first [s] slots. *)
Definition heap_upto (s : Z) (d : list T) : Prop :=
  forall i x p, 0 < i < s -> get d i = Some x ->
    get d (getParentIndex i) = Some p -> not_negative x p.

(** The comparator raised [e] on some pair. *)
Definition rejects (e : exn E) : Prop :=
  exists a b, compare a b = Rejected e.

(** The child that the loop of [pop] compares with the current node: the
    left one when the right one is not in use or when
    [compare(data[left], data[right]) <= 0], the right one otherwise. *)
Definition chosen_child (size : Z) (d : list T) (left right greatest : Z) :
    Prop :=
  (size <= right /\ greatest = left) \/
  (right < size /\
   exists l r c, get d left = Some l /\ get d right = Some r /\
                 compare l r = Fulfilled c /\
                 greatest = if c <=? 0 then left else right).

(** [sift_compares size parent d a b d']: the [while] loop of [pop],
    entered at the position [parent] of the array [d] with [size] slots in
    use, calls [compare(a, b)], and the array is [d'] at that call.  The
    loop compares the two children when both are in use, then the chosen
    child with the current node; after a negative answer it swaps the two
    and goes on from the child.  A comparison is made only when every
    comparison before it was fulfilled. *)
Inductive sift_compares (size : Z) :
    Z -> list T -> T -> T -> list T -> Prop :=
| compares_children parent d l r :
    2 * (parent + 1) < size ->
    get d (2 * (parent + 1) - 1) = Some l ->
    get d (2 * (parent + 1)) = Some r ->
    sift_compares size parent d l r d
| compares_parent parent d greatest g p :
    2 * (parent + 1) - 1 < size ->
    chosen_child size d (2 * (parent + 1) - 1) (2 * (parent + 1)) greatest ->
    get d greatest = Some g -> get d parent = Some p ->
    sift_compares size parent d g p d
| compares_below parent d greatest g p c d1 a b d' :
    2 * (parent + 1) - 1 < size ->
    chosen_child size d (2 * (parent + 1) - 1) (2 * (parent + 1)) greatest ->
    get d greatest = Some g -> get d parent = Some p ->
    compare g p = Fulfilled c -> c < 0 ->
    swap d parent greatest = Some d1 ->
    sift_compares size greatest d1 a b d' ->
    sift_compares size parent d a b d'.

(** [pop_compares d a b d']: [pop()] on the array [d] calls
    [compare(a, b)], and the array is [d'] at that call: a comparison of
    the loop, entered at the root after the first swap. *)
Definition pop_compares (d : list T) (a b : T) (d' : list T) : Prop :=
  exists d1, d <> [] /\ swap d 0 (len d - 1) = Some d1 /\
             sift_compares (len d - 1) 0 d1 a b d'.

(** The comparator is a consistent ordering: an answer [<= 0] one way
    round excludes a negative answer the other way round, and "not
    strictly nearer the root" is transitive. *)
Record consistent : Prop := {
  consistent_flip : forall a b z,
    compare a b = Fulfilled z -> z <= 0 -> not_negative b a;
  consistent_trans : forall a b c,
    not_negative a b -> not_negative b c -> not_negative a c
}.

(** During sift-up at index [k]: every edge but the one above [k] is in
    order, and the children of [k] are in order with the parent of [k]. *)
Definition up_inv (d : list T) (k : Z) : Prop :=
  (forall i x p, 0 < i -> i <> k -> get d i = Some x ->
     get d (getParentIndex i) = Some p -> not_negative x p) /\
  (forall i x g, 0 < k -> getParentIndex i = k -> get d i = Some x ->
     get d (getParentIndex k) = Some g -> not_negative x g).

(** During sift-down at index [k] in the first [s] slots: every edge but
    those below [k] is in order, and the children of [k] are in order
    with the parent of [k]. *)
Definition down_inv (s : Z) (d : list T) (k : Z) : Prop :=
  (forall i x p, 0 < i < s -> getParentIndex i <> k -> get d i = Some x ->
     get d (getParentIndex i) = Some p -> not_negative x p) /\
  (forall i x g, 0 < i < s -> 0 < k -> getParentIndex i = k ->
     get d i = Some x -> get d (getParentIndex k) = Some g ->
     not_negative x g).

(** A call of [push] or of [pop]. *)
Inductive op : Type :=
| Push (values : list T)
| Pop.

Definition run_op (o : op) : M (list T) E unit :=
  match o with
  | Push values => do _ <- push compare values; ret tt
  | Pop => do _ <- pop compare; ret tt
  end.

(** The calls of [ops], one after the other; a throw ends the run. *)
Fixpoint run_ops (ops : list op) : M (list T) E unit :=
  match ops with
  | [] => ret tt
  | o :: ops => do _ <- run_op o; run_ops ops
  end.

(** Repeated [pop()] until the heap is empty, as the description of
    [drain] has it. *)
Fixpoint repeated_pop (fuel : nat) : M (list T) E (list T) :=
  match fuel with
  | O => wrong
  | S fuel =>
      do n <- length_;
      if n =? 0 then ret []
      else
        do value <- pop compare;
        match value with
        | Some v => do vs <- repeated_pop fuel; ret (v :: vs)
        | None => wrong
        end
  end.

Definition pop_until_empty : M (list T) E (list T) :=
  do n <- length_; repeated_pop (S (Z.to_nat n)).

(** Best first: no value is strictly nearer the root than one yielded
    before it. *)
Definition best_first (vs : list T) : Prop :=
  StronglySorted (fun a b => not_negative b a) vs.

End Notions.

(** ** Reasoning about computations *)

Section WPDef.
Context {S E : Type}.

(** [wp m d Q X]: run on the state [d], [m] does not go [Wrong]; when it
    returns [a] in the state [d'], [Q a d'] holds, when it throws [e],
    [X e d'] holds. *)
Definition wp {A} (m : M S E A) (d : S)
    (Q : A -> S -> Prop) (X : exn E -> S -> Prop) : Prop :=
  match m d with
  | (Normal a, d') => Q a d'
  | (Throw e, d') => X e d'
  | (Wrong, _) => False
  end.

End WPDef.

(** * Properties *)

(** ** Arrays *)

Section ArrayLemmas.
Context {T : Type}.

Lemma len_nonneg (array : list T) : 0 <= len array.
Proof. unfold len. lia. Qed.

Lemma get_Some_lt (array : list T) i x :
  get array i = Some x -> 0 <= i < len array.
Proof.
  unfold get, len. destruct (Z.leb_spec 0 i) as [Hi|Hi]; [|discriminate].
  intros Hx%lookup_lt_Some. lia.
Qed.

Lemma get_lt_Some (array : list T) i :
  0 <= i < len array -> exists x, get array i = Some x.
Proof.
  unfold get, len. intros [H0 H1].
  destruct (Z.leb_spec 0 i); [|lia].
  destruct (lookup_lt_is_Some_2 array (Z.to_nat i)) as [x Hx]; [lia|].
  eauto.
Qed.

Lemma len_set (array : list T) i v : len (set array i v) = len array.
Proof.
  unfold set, len. destruct (0 <=? i); [|done]. by rewrite length_insert.
Qed.

Lemma get_set_eq (array : list T) i v :
  0 <= i < len array -> get (set array i v) i = Some v.
Proof.
  unfold get, set, len. intros [H0 H1].
  destruct (Z.leb_spec 0 i); [|lia].
  apply list_lookup_insert_eq. lia.
Qed.

Lemma get_set_ne (array : list T) i j v :
  i <> j -> get (set array i v) j = get array j.
Proof.
  unfold get, set. intros Hne.
  destruct (Z.leb_spec 0 j); [|done].
  destruct (Z.leb_spec 0 i); [|done].
  apply list_lookup_insert_ne. lia.
Qed.

Lemma get_app_l (array : list T) v i :
  i < len array -> get (array ++ [v]) i = get array i.
Proof.
  unfold get, len. intros H.
  destruct (Z.leb_spec 0 i); [|done].
  apply lookup_app_l. lia.
Qed.

Lemma len_app (array : list T) v : len (array ++ [v]) = len array + 1.
Proof. unfold len. rewrite length_app. simpl. lia. Qed.

Lemma swap_Some (array : list T) a b :
  0 <= a < len array -> 0 <= b < len array ->
  exists x y, get array a = Some x /\ get array b = Some y /\
              swap array a b = Some (set (set array a y) b x).
Proof.
  intros Ha Hb. destruct (get_lt_Some array a Ha) as [x Hx].
  destruct (get_lt_Some array b Hb) as [y Hy].
  exists x, y. unfold swap. by rewrite Hx, Hy.
Qed.

Lemma swap_len (array array' : list T) a b :
  swap array a b = Some array' -> len array' = len array.
Proof.
  unfold swap. destruct (get array a), (get array b); try discriminate.
  intros [= <-]. by rewrite !len_set.
Qed.

Lemma swap_get (array array' : list T) a b i :
  swap array a b = Some array' ->
  get array' i = if i =? b then get array a
                 else if i =? a then get array b
                 else get array i.
Proof.
  unfold swap.
  destruct (get array a) as [x|] eqn:Ha; [|discriminate].
  destruct (get array b) as [y|] eqn:Hb; [|discriminate].
  intros [= <-].
  pose proof (get_Some_lt _ _ _ Ha). pose proof (get_Some_lt _ _ _ Hb).
  destruct (Z.eqb_spec i b) as [->|Hib].
  - apply get_set_eq. by rewrite len_set.
  - rewrite get_set_ne by done.
    destruct (Z.eqb_spec i a) as [->|Hia].
    + by apply get_set_eq.
    + by rewrite get_set_ne.
Qed.

Lemma swap_get_b (array array' : list T) a b :
  swap array a b = Some array' -> get array' b = get array a.
Proof. intros H. rewrite (swap_get _ _ _ _ b H). by rewrite Z.eqb_refl. Qed.

Lemma swap_get_a (array array' : list T) a b :
  swap array a b = Some array' -> get array' a = get array b.
Proof.
  intros H. rewrite (swap_get _ _ _ _ a H), Z.eqb_refl.
  by destruct (Z.eqb_spec a b) as [->|].
Qed.

Lemma swap_get_other (array array' : list T) a b i :
  swap array a b = Some array' -> i <> a -> i <> b ->
  get array' i = get array i.
Proof.
  intros H Ha Hb. rewrite (swap_get _ _ _ _ i H).
  destruct (Z.eqb_spec i b); [done|]. by destruct (Z.eqb_spec i a).
Qed.

Lemma set_Permutation_swap (array : list T) a b x y :
  get array a = Some x -> get array b = Some y ->
  set (set array a y) b x ≡ₚ array.
Proof.
  intros Ha Hb.
  pose proof (get_Some_lt _ _ _ Ha) as Hla.
  pose proof (get_Some_lt _ _ _ Hb) as Hlb.
  revert Ha Hb. unfold get, set, len in *.
  destruct (Z.leb_spec 0 a); [|lia]. destruct (Z.leb_spec 0 b); [|lia].
  generalize (Z.to_nat a) (Z.to_nat b). clear. intros i j Hi Hj.
  symmetry. apply Permutation_inj. split.
  - by rewrite !length_insert.
  - exists (fun k => if decide (k = i) then j else if decide (k = j) then i else k).
    split.
    + intros k1 k2. repeat case_decide; congruence.
    + intros k. pose proof (lookup_lt_Some _ _ _ Hi).
      pose proof (lookup_lt_Some _ _ _ Hj).
      repeat case_decide; subst.
      * rewrite Hi. symmetry.
        apply list_lookup_insert_eq. by rewrite length_insert.
      * rewrite Hj. destruct (decide (i = j)) as [->|].
        -- congruence.
        -- rewrite list_lookup_insert_ne by done.
           symmetry. by apply list_lookup_insert_eq.
      * by rewrite !list_lookup_insert_ne by done.
Qed.

Lemma swap_Permutation (array array' : list T) a b :
  swap array a b = Some array' -> array' ≡ₚ array.
Proof.
  unfold swap.
  destruct (get array a) as [x|] eqn:Ha; [|discriminate].
  destruct (get array b) as [y|] eqn:Hb; [|discriminate].
  intros [= <-]. by apply set_Permutation_swap.
Qed.

End ArrayLemmas.

(** ** Index arithmetic of the implicit tree *)

Lemma getParentIndex_bounds (i : Z) : 0 < i -> 0 <= getParentIndex i < i.
Proof. unfold getParentIndex. intros. Z.div_mod_to_equations. lia. Qed.

Lemma getParentIndex_children (i k : Z) :
  getParentIndex i = k <-> i = 2 * (k + 1) - 1 \/ i = 2 * (k + 1).
Proof. unfold getParentIndex. Z.div_mod_to_equations. lia. Qed.

Lemma getParentIndex_root : getParentIndex 0 = -1.
Proof. reflexivity. Qed.

(** ** Rules for [wp] *)

Section WP.
Context {S E : Type}.
Local Abbreviation M := (M S E).
Implicit Types (d : S) (X : exn E -> S -> Prop).

Lemma wp_ret {A} (a : A) d Q X : Q a d -> wp (ret a) d Q X.
Proof. done. Qed.

Lemma wp_bind {A B} (m : M A) (f : A -> M B) d Q X :
  wp m d (fun a d' => wp (f a) d' Q X) X -> wp (bind m f) d Q X.
Proof. unfold wp, bind. by destruct (m d) as [[a|e|] d']. Qed.

Lemma wp_mono {A} (m : M A) d (Q Q' : A -> S -> Prop) (X X' : exn E -> S -> Prop) :
  wp m d Q X ->
  (forall a d', Q a d' -> Q' a d') ->
  (forall e d', X e d' -> X' e d') ->
  wp m d Q' X'.
Proof. unfold wp. destruct (m d) as [[a|e|] d']; auto. Qed.

Lemma wp_Normal {A} (m : M A) d Q X a d' :
  wp m d Q X -> m d = (Normal a, d') -> Q a d'.
Proof. unfold wp. intros H Heq. by rewrite Heq in H. Qed.

Lemma wp_Throw {A} (m : M A) d Q X e d' :
  wp m d Q X -> m d = (Throw e, d') -> X e d'.
Proof. unfold wp. intros H Heq. by rewrite Heq in H. Qed.

Lemma wp_not_Wrong {A} (m : M A) d Q X :
  wp m d Q X -> (m d).1 <> Wrong.
Proof. unfold wp. by destruct (m d) as [[a|e|] d']. Qed.

Lemma wp_await {A} (p : promise E A) d Q X :
  match p with Fulfilled a => Q a d | Rejected e => X e d end ->
  wp (await p) d Q X.
Proof. unfold wp, await. by destruct p. Qed.

Lemma wp_throw {A} (e : exn E) d (Q : A -> S -> Prop) X :
  X e d -> wp (throw e) d Q X.
Proof. done. Qed.

End WP.

Section WPArray.
Context {T E : Type}.
Local Abbreviation M := (M (list T) E).
Implicit Types (d : list T) (X : exn E -> list T -> Prop).

Lemma wp_data_length d Q X : Q (len d) d -> wp data_length d Q X.
Proof. done. Qed.

Lemma wp_read i x d Q X : get d i = Some x -> Q x d -> wp (read i) d Q X.
Proof. unfold wp, read. by intros ->. Qed.

Lemma wp_swap_data a b d d' Q X :
  swap d a b = Some d' -> Q tt d' -> wp (swap_data a b) d Q X.
Proof. unfold wp, swap_data. by intros ->. Qed.

Lemma wp_data_push v d Q X : Q tt (d ++ [v]) -> wp (data_push v) d Q X.
Proof. done. Qed.

End WPArray.

(** ** Sift-up and sift-down keep the heap in order *)

Section Order.
Context {T E : Type}.
Variable compare : T -> T -> promise E Z.

Local Abbreviation not_negative := (not_negative compare).
Local Abbreviation heap_property := (heap_property compare).
Local Abbreviation heap_upto := (heap_upto compare).
Local Abbreviation consistent := (consistent compare).
Local Abbreviation up_inv := (up_inv compare).
Local Abbreviation down_inv := (down_inv compare).

Lemma heap_propertyb_spec d : heap_propertyb compare d = true <-> heap_property d.
Proof.
  unfold heap_propertyb. rewrite forallb_forall. split.
  - intros H i x p Hi Hx Hp z Hz.
    pose proof (get_Some_lt _ _ _ Hx) as Hlt.
    assert (Hin : In i (seqZ 1 (len d - 1))).
    { apply list_elem_of_In, elem_of_seqZ. lia. }
    specialize (H i Hin). unfold in_order_at in H.
    rewrite Hx, Hp, Hz in H. simpl in H.
    destruct (Z.ltb_spec z 0); [discriminate|lia].
  - intros H i Hin. apply list_elem_of_In, elem_of_seqZ in Hin.
    unfold in_order_at.
    destruct (get d i) as [x|] eqn:Hx; [|done].
    destruct (get d (getParentIndex i)) as [p|] eqn:Hp; [|done].
    destruct (compare x p) as [z|e] eqn:Hz; [|done]. simpl.
    specialize (H i x p ltac:(lia) Hx Hp z Hz).
    destruct (Z.ltb_spec z 0); [lia|done].
Qed.

Lemma heap_property_nil : heap_property [].
Proof. intros i x p _ Hx. apply get_Some_lt in Hx. unfold len in Hx. simpl in Hx. lia. Qed.

Lemma up_inv_append d v : heap_property d -> up_inv (d ++ [v]) (len d).
Proof.
  intros H. split.
  - intros i x p Hi Hne Hx Hp.
    pose proof (get_Some_lt _ _ _ Hx) as Hlt. rewrite len_app in Hlt.
    pose proof (getParentIndex_bounds i Hi).
    rewrite get_app_l in Hx, Hp by lia. exact (H i x p Hi Hx Hp).
  - intros i x g Hk Hpar Hx _.
    pose proof (get_Some_lt _ _ _ Hx) as Hlt. rewrite len_app in Hlt.
    apply getParentIndex_children in Hpar. lia.
Qed.

Lemma up_inv_root d : up_inv d 0 -> heap_property d.
Proof.
  intros [U1 U2] i y q Hi Hy Hq. apply (U1 i y q); [done|lia|done|done].
Qed.

Lemma up_inv_done d k x p :
  up_inv d k ->
  get d k = Some x -> get d (getParentIndex k) = Some p ->
  not_negative x p ->
  heap_property d.
Proof.
  intros [U1 U2] Hx Hp Hnn i y q Hi Hy Hq.
  destruct (Z.eq_dec i k) as [->|Hne]; [|exact (U1 i y q Hi Hne Hy Hq)].
  rewrite Hx in Hy. rewrite Hp in Hq.
  injection Hy as <-. injection Hq as <-. exact Hnn.
Qed.

Lemma up_inv_step d d1 k x p c :
  consistent -> up_inv d k -> 0 < k ->
  get d k = Some x -> get d (getParentIndex k) = Some p ->
  compare x p = Fulfilled c -> c < 0 ->
  swap d (getParentIndex k) k = Some d1 ->
  up_inv d1 (getParentIndex k).
Proof.
  intros [Hflip Htrans] [U1 U2] Hk Hx Hp Hc Hneg Hswap.
  pose proof (getParentIndex_bounds k Hk) as Hpk.
  assert (Hpx : not_negative p x) by (eapply Hflip; [exact Hc|lia]).
  split.
  - intros i y q Hi Hne Hy Hq.
    pose proof (getParentIndex_bounds i Hi) as Hpi.
    destruct (Z.eq_dec i k) as [->|Hik].
    + rewrite (swap_get_b _ _ _ _ Hswap) in Hy.
      rewrite (swap_get_a _ _ _ _ Hswap) in Hq.
      rewrite Hp in Hy. rewrite Hx in Hq.
      injection Hy as <-. injection Hq as <-. exact Hpx.
    + rewrite (swap_get_other _ _ _ _ _ Hswap) in Hy by lia.
      destruct (Z.eq_dec (getParentIndex i) k) as [Hpik|Hpik].
      * rewrite Hpik, (swap_get_b _ _ _ _ Hswap), Hp in Hq.
        injection Hq as <-. eapply (U2 i); eauto.
      * destruct (Z.eq_dec (getParentIndex i) (getParentIndex k)) as [Hpp|Hpp].
        -- rewrite Hpp, (swap_get_a _ _ _ _ Hswap), Hx in Hq.
           injection Hq as <-.
           eapply Htrans; [|exact Hpx].
           apply (U1 i y p Hi Hik Hy). by rewrite Hpp.
        -- rewrite (swap_get_other _ _ _ _ _ Hswap) in Hq by lia.
           exact (U1 i y q Hi Hik Hy Hq).
  - intros i y g Hk' Hpar Hy Hg.
    pose proof (getParentIndex_bounds _ Hk') as Hppk.
    assert (Hi : getParentIndex k < i)
      by (apply getParentIndex_children in Hpar; lia).
    rewrite (swap_get_other _ _ _ _ _ Hswap) in Hg by lia.
    assert (Hpg : not_negative p g).
    { apply (U1 (getParentIndex k) p g); [lia|lia|exact Hp|exact Hg]. }
    destruct (Z.eq_dec i k) as [->|Hik].
    + rewrite (swap_get_b _ _ _ _ Hswap), Hp in Hy.
      injection Hy as <-. exact Hpg.
    + rewrite (swap_get_other _ _ _ _ _ Hswap) in Hy by lia.
      eapply Htrans; [|exact Hpg].
      apply (U1 i y p); [lia|exact Hik|exact Hy|by rewrite Hpar].
Qed.

Lemma down_inv_start d d1 :
  heap_property d -> swap d 0 (len d - 1) = Some d1 ->
  down_inv (len d - 1) d1 0.
Proof.
  intros H Hswap. split; [|lia].
  intros i x p Hi Hpar Hx Hp.
  pose proof (getParentIndex_bounds i ltac:(lia)) as Hpi.
  rewrite (swap_get_other _ _ _ _ _ Hswap) in Hx by lia.
  rewrite (swap_get_other _ _ _ _ _ Hswap) in Hp by lia.
  apply (H i x p); [lia|exact Hx|exact Hp].
Qed.

Lemma down_inv_done s d k :
  down_inv s d k ->
  (forall i x p, 0 < i < s -> getParentIndex i = k -> get d i = Some x ->
     get d k = Some p -> not_negative x p) ->
  heap_upto s d.
Proof.
  intros [D1 D2] Hch i x p Hi Hx Hp.
  destruct (Z.eq_dec (getParentIndex i) k) as [Hpar|Hpar].
  - apply (Hch i x p Hi Hpar Hx). by rewrite <- Hpar.
  - exact (D1 i x p Hi Hpar Hx Hp).
Qed.

Lemma down_inv_step s d d1 k g gv kv c :
  consistent -> down_inv s d k -> 0 <= k ->
  0 < g < s -> getParentIndex g = k ->
  get d g = Some gv -> get d k = Some kv ->
  compare gv kv = Fulfilled c -> c < 0 ->
  (forall o y, 0 < o < s -> getParentIndex o = k -> o <> g ->
     get d o = Some y -> not_negative y gv) ->
  swap d k g = Some d1 ->
  down_inv s d1 g.
Proof.
  intros [Hflip Htrans] [D1 D2] Hk Hg Hpar Hgv Hkv Hc Hneg Hother Hswap.
  pose proof (getParentIndex_bounds g ltac:(lia)) as Hpg.
  assert (Hkg : not_negative kv gv) by (eapply Hflip; [exact Hc|lia]).
  split.
  - intros i x p Hi Hpi Hx Hp.
    pose proof (getParentIndex_bounds i ltac:(lia)) as Hbi.
    destruct (Z.eq_dec i g) as [->|Hig].
    + rewrite (swap_get_b _ _ _ _ Hswap), Hkv in Hx.
      rewrite Hpar, (swap_get_a _ _ _ _ Hswap), Hgv in Hp.
      injection Hx as <-. injection Hp as <-. exact Hkg.
    + destruct (Z.eq_dec i k) as [->|Hik].
      * rewrite (swap_get_a _ _ _ _ Hswap), Hgv in Hx.
        injection Hx as <-.
        rewrite (swap_get_other _ _ _ _ _ Hswap) in Hp by lia.
        apply (D2 g gv p); [exact Hg|lia|exact Hpar|exact Hgv|exact Hp].
      * rewrite (swap_get_other _ _ _ _ _ Hswap) in Hx by lia.
        destruct (Z.eq_dec (getParentIndex i) k) as [Hpik|Hpik].
        -- rewrite Hpik, (swap_get_a _ _ _ _ Hswap), Hgv in Hp.
           injection Hp as <-. exact (Hother i x Hi Hpik Hig Hx).
        -- rewrite (swap_get_other _ _ _ _ _ Hswap) in Hp by lia.
           exact (D1 i x p Hi Hpik Hx Hp).
  - intros i x q Hi _ Hpi Hx Hq.
    assert (g < i) by (apply getParentIndex_children in Hpi; lia).
    rewrite (swap_get_other _ _ _ _ _ Hswap) in Hx by lia.
    rewrite Hpar, (swap_get_a _ _ _ _ Hswap), Hgv in Hq.
    injection Hq as <-.
    apply (D1 i x gv Hi); [lia|exact Hx|by rewrite Hpi].
Qed.

End Order.

(** ** What the loops of [push] and [pop] do *)

Section Specs.
Context {T E : Type}.
Variable compare : T -> T -> promise E Z.

Lemma push_while_unfold fuel index parent :
  push_while compare fuel index parent =
  if negb (index =? 0) then
    match fuel with
    | O => wrong
    | S fuel =>
        do x <- read index;
        do p <- read parent;
        do comparison <- await (compare x p);
        if comparison <? 0 then
          do _ <- swap_data parent index;
          push_while compare fuel parent (getParentIndex parent)
        else ret tt
    end
  else ret tt.
Proof. by destruct fuel. Qed.

Lemma pop_while_unfold fuel size parent right left :
  pop_while compare fuel size parent right left =
  if left <? size then
    match fuel with
    | O => wrong
    | S fuel =>
        do greatest <- greatestChild compare size left right;
        do g <- read greatest;
        do p <- read parent;
        do c <- await (compare g p);
        if c <? 0 then
          do _ <- swap_data parent greatest;
          pop_while compare fuel size greatest
            (2 * (greatest + 1)) (2 * (greatest + 1) - 1)
        else ret tt
    end
  else ret tt.
Proof. by destruct fuel. Qed.

(** Sift-up from [index]: the loop ends within its bound, permutes the
    array, and restores the heap property when the comparator is a
    consistent ordering. *)
Lemma push_while_wp fuel : forall index d,
  0 <= index < len d -> (Z.to_nat index <= fuel)%nat ->
  wp (push_while compare fuel index (getParentIndex index)) d
    (fun _ d' => d' ≡ₚ d /\
       (consistent compare -> up_inv compare d index ->
        heap_property compare d'))
    (fun e d' => d' ≡ₚ d /\ rejects compare e).
Proof.
  induction fuel as [|fuel IH]; intros index d Hi Hfuel;
    rewrite push_while_unfold;
    (destruct (Z.eqb_spec index 0) as [->|Hne]; simpl;
     [apply wp_ret; split; [done|]; intros _ Hinv; by apply up_inv_root|]);
    [lia|].
  pose proof (getParentIndex_bounds index ltac:(lia)) as Hpar.
  destruct (get_lt_Some d index) as [x Hx]; [lia|].
  destruct (get_lt_Some d (getParentIndex index)) as [p Hp]; [lia|].
  apply wp_bind. eapply wp_read; [exact Hx|].
  apply wp_bind. eapply wp_read; [exact Hp|].
  apply wp_bind. apply wp_await. destruct (compare x p) as [c|e] eqn:Hc.
  - destruct (Z.ltb_spec c 0) as [Hneg|Hpos].
    + destruct (swap_Some d (getParentIndex index) index)
        as (x' & y' & _ & _ & Hswap); [lia|lia|].
      apply wp_bind. eapply wp_swap_data; [exact Hswap|].
      pose proof (swap_len _ _ _ _ Hswap) as Hlen.
      pose proof (swap_Permutation _ _ _ _ Hswap) as Hperm.
      eapply wp_mono; [apply IH; lia| |].
      * intros _ d' [Hp' Hheap]. split; [by rewrite Hp'|].
        intros Hcons Hinv. apply Hheap; [done|].
        eapply up_inv_step; eauto. lia.
      * intros e d' [Hp' Hrej]. split; [by rewrite Hp'|done].
    + apply wp_ret. split; [done|]. intros _ Hinv.
      eapply up_inv_done; eauto. intros z Hz. rewrite Hc in Hz.
      injection Hz as <-. lia.
  - split; [done|]. by exists x, p.
Qed.

(** The choice of the child to compare with the current node. *)
Lemma greatestChild_wp size k d :
  0 <= k -> 2 * (k + 1) - 1 < size <= len d ->
  wp (greatestChild compare size (2 * (k + 1) - 1) (2 * (k + 1))) d
    (fun g d' => d' = d /\ 0 < g < size /\ getParentIndex g = k /\
       (consistent compare -> forall gv o y,
          get d g = Some gv -> 0 < o < size -> getParentIndex o = k ->
          o <> g -> get d o = Some y -> not_negative compare y gv))
    (fun e d' => d' = d /\ rejects compare e).
Proof.
  intros Hk Hsize. unfold greatestChild.
  destruct (Z.leb_spec size (2 * (k + 1))) as [Hr|Hr].
  - apply wp_ret. split; [done|]. split; [lia|].
    split; [apply getParentIndex_children; lia|].
    intros _ gv o y _ Ho Hpar Hne _.
    apply getParentIndex_children in Hpar. lia.
  - destruct (get_lt_Some d (2 * (k + 1) - 1)) as [l Hl]; [lia|].
    destruct (get_lt_Some d (2 * (k + 1))) as [r Hrv]; [lia|].
    apply wp_bind. eapply wp_read; [exact Hl|].
    apply wp_bind. eapply wp_read; [exact Hrv|].
    apply wp_bind. apply wp_await. destruct (compare l r) as [c|e] eqn:Hc.
    + apply wp_ret. split; [done|].
      destruct (Z.leb_spec c 0) as [Hle|Hgt].
      * split; [lia|]. split; [apply getParentIndex_children; lia|].
        intros Hcons gv o y Hgv Ho Hpar Hne Hy.
        apply getParentIndex_children in Hpar.
        assert (o = 2 * (k + 1)) as -> by lia.
        rewrite Hl in Hgv. rewrite Hrv in Hy.
        injection Hgv as <-. injection Hy as <-.
        eapply consistent_flip; eauto.
      * split; [lia|]. split; [apply getParentIndex_children; lia|].
        intros _ gv o y Hgv Ho Hpar Hne Hy.
        apply getParentIndex_children in Hpar.
        assert (o = 2 * (k + 1) - 1) as -> by lia.
        rewrite Hrv in Hgv. rewrite Hl in Hy.
        injection Hgv as <-. injection Hy as <-.
        intros z Hz. rewrite Hc in Hz. injection Hz as <-. lia.
    + split; [done|]. by exists l, r.
Qed.

(** Sift-down from [k] within the first [size] slots: the loop ends within
    its bound, permutes the array, leaves the slots from [size] on alone,
    and restores the heap property of the first [size] slots when the
    comparator is a consistent ordering. *)
Lemma pop_while_wp fuel : forall size k d,
  0 <= k -> size <= len d -> (Z.to_nat (size - k) <= fuel)%nat ->
  wp (pop_while compare fuel size k (2 * (k + 1)) (2 * (k + 1) - 1)) d
    (fun _ d' => d' ≡ₚ d /\
       (forall j, size <= j -> get d' j = get d j) /\
       (consistent compare -> down_inv compare size d k ->
        heap_upto compare size d'))
    (fun e d' => d' ≡ₚ d /\
       (forall j, size <= j -> get d' j = get d j) /\
       rejects compare e).
Proof.
  induction fuel as [|fuel IH]; intros size k d Hk Hsize Hfuel;
    rewrite pop_while_unfold;
    (destruct (Z.ltb_spec (2 * (k + 1) - 1) size) as [Hlt|Hge];
     [|apply wp_ret; split; [done|]; split; [done|];
       intros _ Hinv; apply (down_inv_done _ _ _ _ Hinv);
       intros i x p Hi Hpar; apply getParentIndex_children in Hpar; lia]);
    [lia|].
  apply wp_bind.
  eapply wp_mono; [apply greatestChild_wp; lia| |]; cbv beta;
    [|intros e d' [-> Hrej]; by repeat split].
  intros g d' (-> & Hg & Hpar & Hother).
  destruct (get_lt_Some d g) as [gv Hgv]; [lia|].
  destruct (get_lt_Some d k) as [kv Hkv]; [lia|].
  apply wp_bind. eapply wp_read; [exact Hgv|].
  apply wp_bind. eapply wp_read; [exact Hkv|].
  apply wp_bind. apply wp_await. destruct (compare gv kv) as [c|e] eqn:Hc.
  - destruct (Z.ltb_spec c 0) as [Hneg|Hpos].
    + destruct (swap_Some d k g) as (x' & y' & _ & _ & Hswap); [lia|lia|].
      apply wp_bind. eapply wp_swap_data; [exact Hswap|].
      pose proof (swap_len _ _ _ _ Hswap) as Hlen.
      pose proof (swap_Permutation _ _ _ _ Hswap) as Hperm.
      assert (k < g) by (apply getParentIndex_children in Hpar; lia).
      eapply wp_mono; [apply IH; lia| |]; cbv beta.
      * intros _ d' (Hp' & Hframe & Hheap). split; [by rewrite Hp'|].
        split.
        { intros j Hj. rewrite Hframe by done.
          apply (swap_get_other _ _ _ _ _ Hswap); lia. }
        intros Hcons Hinv. apply Hheap; [done|].
        eapply down_inv_step; eauto.
      * intros e d' (Hp' & Hframe & Hrej). split; [by rewrite Hp'|].
        split; [|done].
        intros j Hj. rewrite Hframe by done.
        apply (swap_get_other _ _ _ _ _ Hswap); lia.
    + apply wp_ret. split; [done|]. split; [done|]. intros Hcons Hinv.
      apply (down_inv_done _ _ _ _ Hinv).
      intros i x p Hi Hpi Hx Hp. rewrite Hkv in Hp. injection Hp as <-.
      destruct (Z.eq_dec i g) as [->|Hig].
      * rewrite Hgv in Hx. injection Hx as <-.
        intros z Hz. rewrite Hc in Hz. injection Hz as <-. lia.
      * eapply (consistent_trans _ Hcons); [eapply Hother; eauto|].
        intros z Hz. rewrite Hc in Hz. injection Hz as <-. lia.
  - split; [done|]. split; [done|]. by exists gv, kv.
Qed.

Lemma len_Permutation (d d' : list T) : d' ≡ₚ d -> len d' = len d.
Proof. intros H. unfold len. by rewrite H. Qed.

Lemma len_0_nil (d : list T) : len d = 0 -> d = [].
Proof. destruct d; [done|]. unfold len. simpl. lia. Qed.

Lemma get_last_snoc (d : list T) x :
  get d (len d - 1) = Some x -> exists l, d = l ++ [x].
Proof.
  intros H. apply last_Some. rewrite last_lookup.
  pose proof (get_Some_lt _ _ _ H) as Hlt.
  unfold get, len in *. destruct (Z.leb_spec 0 (Z.of_nat (length d) - 1)); [|lia].
  rewrite <- H. f_equal. lia.
Qed.

Lemma data_pop_snoc (l : list T) x :
  data_pop (E := E) (l ++ [x]) = (Normal (Some x), l).
Proof.
  unfold data_pop. rewrite last_snoc. f_equal.
  rewrite length_app. simpl. apply take_app_length'. lia.
Qed.

Lemma heap_upto_snoc (l : list T) x :
  heap_upto compare (len l) (l ++ [x]) -> heap_property compare l.
Proof.
  intros H i y q Hi Hy Hq.
  pose proof (get_Some_lt _ _ _ Hy).
  pose proof (getParentIndex_bounds i Hi).
  apply (H i y q); [lia| |]; by rewrite get_app_l by lia.
Qed.

(** [pop()]: it does not go wrong; when it returns, the value is what was
    at index 0 ([undefined] for an empty array), that element is removed
    and the rest is permuted; when it throws, the comparator has raised
    the exception, no element is removed and the old root sits in the
    last slot. *)
Lemma pop_wp d :
  wp (pop compare) d
    (fun r d' => r = get d 0 /\
       match r with
       | Some x => x :: d' ≡ₚ d
       | None => d' = d
       end /\
       (consistent compare -> heap_property compare d ->
        heap_property compare d'))
    (fun e d' => rejects compare e /\ d' ≡ₚ d /\
       get d' (len d - 1) = get d 0).
Proof.
  unfold pop. apply wp_bind, wp_data_length.
  destruct (Z.eqb_spec (len d) 0) as [Hz|Hnz].
  - apply wp_ret. apply len_0_nil in Hz. by subst d.
  - cbv zeta. pose proof (len_nonneg d).
    destruct (swap_Some d 0 (len d - 1)) as (x & y & Hx & Hy & Hswap);
      [lia|lia|].
    apply wp_bind. eapply wp_swap_data; [exact Hswap|].
    pose proof (swap_len _ _ _ _ Hswap) as Hlen.
    pose proof (swap_Permutation _ _ _ _ Hswap) as Hperm.
    pose proof (swap_get_b _ _ _ _ Hswap) as Hroot.
    apply wp_bind.
    eapply wp_mono; [apply pop_while_wp; lia| |]; cbv beta.
    + intros _ d2 (Hp2 & Hframe & Hheap).
      pose proof (len_Permutation _ _ Hp2) as Hlen2.
      assert (Hlast : get d2 (len d2 - 1) = Some x).
      { rewrite Hlen2, Hlen, Hframe by lia. by rewrite Hroot. }
      destruct (get_last_snoc _ _ Hlast) as [l ->].
      unfold wp. rewrite data_pop_snoc.
      split; [done|]. split.
      * rewrite <- Hperm, <- Hp2. apply Permutation_cons_append.
      * intros Hcons Hd. apply (heap_upto_snoc _ x).
        rewrite len_app in Hlen2.
        replace (len l) with (len d - 1) by lia.
        apply Hheap; [done|]. by apply down_inv_start.
    + intros e d2 (Hp2 & Hframe & Hrej).
      split; [done|]. split; [by rewrite Hp2|].
      rewrite Hframe by lia. by rewrite Hroot.
Qed.

(** The body of the [for] loop of [push]: the value is appended, then
    sifted up. *)
Lemma push_value_wp v d :
  wp (push_value compare v) d
    (fun _ d' => d' ≡ₚ d ++ [v] /\
       (consistent compare -> heap_property compare d ->
        heap_property compare d'))
    (fun e d' => d' ≡ₚ d ++ [v] /\ rejects compare e).
Proof.
  unfold push_value. apply wp_bind, wp_data_length. cbv zeta.
  apply wp_bind, wp_data_push. pose proof (len_nonneg d).
  eapply wp_mono; [apply push_while_wp; [rewrite len_app; lia|lia]| |];
    cbv beta.
  - intros _ d' [Hp Hheap]. split; [done|].
    intros Hcons Hd. apply Hheap; [done|]. by apply up_inv_append.
  - done.
Qed.

Lemma push_for_wp vs : forall d,
  wp (push_for compare vs) d
    (fun _ d' => d' ≡ₚ d ++ vs /\
       (consistent compare -> heap_property compare d ->
        heap_property compare d'))
    (fun e d' => rejects compare e /\
       exists k, (0 < k <= length vs)%nat /\ d' ≡ₚ d ++ take k vs).
Proof.
  induction vs as [|v vs IH]; intros d; simpl.
  - apply wp_ret. by rewrite app_nil_r.
  - apply wp_bind.
    eapply wp_mono; [apply push_value_wp| |]; cbv beta.
    + intros _ d1 [Hp1 Hheap1].
      eapply wp_mono; [apply IH| |]; cbv beta.
      * intros _ d' [Hp Hheap]. split.
        -- rewrite Hp, Hp1. by rewrite <- app_assoc.
        -- auto.
      * intros e d' (Hrej & k & Hk & Hp). split; [done|].
        exists (S k). split; [lia|]. simpl.
        rewrite Hp, Hp1. by rewrite <- app_assoc.
    + intros e d' [Hp Hrej]. split; [done|].
      exists 1%nat. split; [lia|]. simpl. by rewrite take_0.
Qed.

(** [push(...values)]: it does not go wrong; when it returns, the result
    is the new length and every value has been inserted; when it throws,
    the comparator has raised the exception and the values up to the one
    being sifted have been appended. *)
Lemma push_wp vs d :
  wp (push compare vs) d
    (fun r d' => r = len d' /\ d' ≡ₚ d ++ vs /\
       (consistent compare -> heap_property compare d ->
        heap_property compare d'))
    (fun e d' => rejects compare e /\
       exists k, (0 < k <= length vs)%nat /\ d' ≡ₚ d ++ take k vs).
Proof.
  unfold push. apply wp_bind.
  eapply wp_mono; [apply push_for_wp| |]; cbv beta; [|done].
  intros _ d' [Hp Hheap]. by apply wp_data_length.
Qed.

End Specs.

(** ** Sequences of operations, maxima and draining *)

Section Runs.
Context {T E : Type}.
Variable compare : T -> T -> promise E Z.

Local Abbreviation run_op := (run_op compare).
Local Abbreviation run_ops := (run_ops compare).
Local Abbreviation repeated_pop := (repeated_pop compare).
Local Abbreviation best_first := (best_first compare).

Lemma run_op_wp o d :
  wp (run_op o) d
    (fun _ d' => consistent compare -> heap_property compare d ->
                 heap_property compare d')
    (fun e _ => rejects compare e).
Proof.
  destruct o as [values|]; simpl; apply wp_bind.
  - eapply wp_mono; [apply push_wp| |]; cbv beta.
    + intros r d' (_ & _ & H). by apply wp_ret.
    + by intros e d' [H _].
  - eapply wp_mono; [apply pop_wp| |]; cbv beta.
    + intros r d' (_ & _ & H). by apply wp_ret.
    + by intros e d' [H _].
Qed.

Lemma run_ops_wp ops : forall d,
  wp (run_ops ops) d
    (fun _ d' => consistent compare -> heap_property compare d ->
                 heap_property compare d')
    (fun e _ => rejects compare e).
Proof.
  induction ops as [|o ops IH]; intros d; simpl.
  - by apply wp_ret.
  - apply wp_bind. eapply wp_mono; [apply run_op_wp| |]; cbv beta; [|done].
    intros _ d1 H1. eapply wp_mono; [apply IH| |]; cbv beta; [|done].
    intros _ d' H Hcons Hd. auto.
Qed.

(** In a heap, nothing is strictly nearer the root than the root. *)
Lemma root_max d x :
  consistent compare -> heap_property compare d -> get d 0 = Some x ->
  forall y, y ∈ d -> not_negative compare y x.
Proof.
  intros Hcons Hd Hx.
  assert (Hrefl : not_negative compare x x).
  { intros z Hz. destruct (Z.le_gt_cases z 0) as [Hle|Hgt]; [|lia].
    by apply (consistent_flip _ Hcons x x z Hz Hle). }
  assert (Hall : forall n i y, (Z.to_nat i <= n)%nat -> get d i = Some y ->
                   not_negative compare y x).
  { induction n as [|n IH]; intros i y Hn Hy;
      pose proof (get_Some_lt _ _ _ Hy) as Hi.
    - assert (i = 0) as -> by lia. rewrite Hx in Hy. by injection Hy as <-.
    - destruct (Z.eq_dec i 0) as [->|Hne].
      + rewrite Hx in Hy. by injection Hy as <-.
      + pose proof (getParentIndex_bounds i ltac:(lia)) as Hp.
        destruct (get_lt_Some d (getParentIndex i)) as [p Hpv]; [lia|].
        apply (consistent_trans _ Hcons y p x).
        * apply (Hd i y p); [lia|done|done].
        * apply (IH (getParentIndex i)); [lia|done]. }
  intros y Hy. apply list_elem_of_lookup in Hy as [n Hn].
  apply (Hall n (Z.of_nat n)); [lia|].
  unfold get. destruct (Z.leb_spec 0 (Z.of_nat n)); [|lia].
  by rewrite Nat2Z.id.
Qed.

Lemma isEmpty_eq (d : list T) :
  isEmpty (E := E) d = (Normal (len d =? 0), d).
Proof. done. Qed.

(** The values of a drain: a permutation of the heap, which is left
    empty; best first for a heap with a consistent ordering. *)
Lemma for_await_drain_wp fuel : forall d,
  (Z.to_nat (len d) < fuel)%nat ->
  wp (for_await fuel (drain_next compare)) d
    (fun vs d' => d' = [] /\ vs ≡ₚ d /\
       (consistent compare -> heap_property compare d -> best_first vs))
    (fun e _ => rejects compare e).
Proof.
  induction fuel as [|fuel IH]; intros d Hfuel; [lia|]. simpl.
  apply wp_bind. unfold drain_next. apply wp_bind.
  unfold wp at 1. rewrite isEmpty_eq.
  destruct (Z.eqb_spec (len d) 0) as [Hz|Hnz].
  - apply wp_ret, wp_ret. apply len_0_nil in Hz. subst d.
    repeat split; [done|]. intros _ _. constructor.
  - apply wp_bind. eapply wp_mono; [apply pop_wp| |]; cbv beta;
      [|by intros e d' [H _]].
    intros r d1 (Hr & Hperm & Hheap).
    pose proof (len_nonneg d).
    destruct (get_lt_Some d 0) as [x Hx]; [lia|].
    rewrite Hx in Hr. subst r. cbv iota. apply wp_ret. cbv iota.
    apply wp_bind.
    assert (Hlen : len d = len d1 + 1).
    { rewrite <- (len_Permutation _ _ Hperm). unfold len. simpl. lia. }
    eapply wp_mono; [apply IH; lia| |]; cbv beta; [|done].
    intros vs d' (-> & Hvs & Hbf). apply wp_ret.
    split; [done|]. split; [by rewrite Hvs|].
    intros Hcons Hd. constructor; [apply Hbf; auto|].
    apply Forall_forall. intros y Hy.
    apply (root_max d x Hcons Hd Hx).
    rewrite <- Hperm. apply elem_of_cons. right. by rewrite <- Hvs.
Qed.

Lemma drain_wp d :
  wp (drain compare) d
    (fun vs d' => d' = [] /\ vs ≡ₚ d /\
       (consistent compare -> heap_property compare d -> best_first vs))
    (fun e _ => rejects compare e).
Proof.
  unfold drain. apply wp_bind, wp_data_length.
  apply for_await_drain_wp. lia.
Qed.

Lemma for_await_repeated_pop fuel d :
  for_await fuel (drain_next compare) d = repeated_pop fuel d.
Proof.
  revert d. induction fuel as [|fuel IH]; intros d; [done|]. simpl.
  unfold bind, drain_next, bind. rewrite isEmpty_eq. simpl.
  unfold length_, data_length.
  destruct (len d =? 0); [done|].
  destruct (pop compare d) as [[[v|]|e|] d1]; simpl; try done.
  unfold bind. by rewrite IH.
Qed.

End Runs.

(** ** The comparators of the examples are consistent orderings *)

Lemma descending_consistent : consistent descending.
Proof.
  split.
  - intros a b z [= <-] Hz y [= <-]. unfold descend in *.
    destruct (Z.ltb_spec a b), (Z.ltb_spec b a); lia.
  - intros a b c Hab Hbc z [= <-].
    specialize (Hab _ eq_refl). specialize (Hbc _ eq_refl).
    unfold descend in *.
    destruct (Z.ltb_spec a b), (Z.ltb_spec b a), (Z.ltb_spec b c),
      (Z.ltb_spec c b), (Z.ltb_spec a c), (Z.ltb_spec c a); lia.
Qed.

Lemma ascending_consistent : consistent ascending.
Proof.
  split.
  - intros a b z [= <-] Hz y [= <-]. unfold ascend in *.
    destruct (Z.ltb_spec a b), (Z.ltb_spec b a); lia.
  - intros a b c Hab Hbc z [= <-].
    specialize (Hab _ eq_refl). specialize (Hbc _ eq_refl).
    unfold ascend in *.
    destruct (Z.ltb_spec a b), (Z.ltb_spec b a), (Z.ltb_spec b c),
      (Z.ltb_spec c b), (Z.ltb_spec a c), (Z.ltb_spec c a); lia.
Qed.

(** ** The heap-order invariant *)

(** C1, as amended: when the comparison function is a consistent ordering
    and the heap property holds to begin with (it does for a new heap), a
    sequence of [push] and [pop] calls ends only by completing or by a
    failure of the comparator, and when it completes the heap property holds
    afterwards: for every non-root index [i] with parent [p],
    [compare(data[i], data[p])] is not strictly negative. *)
Theorem heap_property_after_run {T E} (compare : T -> T -> promise E Z)
    (ops : list op) (d : list T) :
  consistent compare -> heap_property compare d ->
  match run_ops compare ops d with
  | (Normal _, d') => heap_property compare d'
  | (Throw e, _) => rejects compare e
  | (Wrong, _) => False
  end.
Proof.
  intros Hcons Hd. pose proof (run_ops_wp compare ops d) as H.
  unfold wp in H. destruct (run_ops compare ops d) as [[[]|e|] d']; auto.
Qed.

Lemma heap_property_after_run_witness :
  match run_ops descending [Push [4; 1; 3; 5; 2]; Pop; Push [9; 0]; Pop] [] with
  | (Normal _, d') => heap_property descending d'
  | (Throw e, _) => rejects descending e
  | (Wrong, _) => False
  end.
Proof.
  apply (heap_property_after_run descending
           [Push [4; 1; 3; 5; 2]; Pop; Push [9; 0]; Pop] []).
  - exact descending_consistent.
  - exact (heap_property_nil descending).
Defined.

(** C1 as stated fails for a comparison function that is not an ordering:
    with the comparator that always answers [-1], [push(1, 2)] on a new heap
    completes and leaves [[2, 1]], where [compare(data[1], data[0])] is
    negative. *)
Lemma heap_property_needs_ordering :
  run_ops always_negative [Push [1; 2]] [] = (Normal tt, [2; 1]) /\
  ~ heap_property always_negative [2; 1].
Proof.
  split; [reflexivity|].
  intros H. apply heap_propertyb_spec in H. discriminate H.
Qed.

(** ** [pop] *)

(** C2, as amended: [pop()] on an empty heap returns [undefined] and raises
    nothing; [pop()] on a non-empty heap either fails with the failure of
    the comparator or removes and returns the element that was at index 0;
    when the heap property held beforehand and the comparison function is a
    consistent ordering, that element is a maximum: no element of the heap
    is strictly nearer the root. *)
Theorem pop_root {T E} (compare : T -> T -> promise E Z) (d : list T) :
  (d = [] -> pop compare d = (Normal None, [])) /\
  (forall x, get d 0 = Some x ->
     match pop compare d with
     | (Normal r, d') => r = Some x /\ x :: d' ≡ₚ d
     | (Throw e, _) => rejects compare e
     | (Wrong, _) => False
     end /\
     (consistent compare -> heap_property compare d ->
      forall y, y ∈ d -> not_negative compare y x)).
Proof.
  split; [by intros ->|].
  intros x Hx. split.
  - pose proof (pop_wp compare d) as H. unfold wp in H.
    destruct (pop compare d) as [[r|e|] d']; [|tauto|done].
    destruct H as (-> & Hperm & _). by rewrite Hx in *.
  - intros Hcons Hd. by apply root_max.
Qed.

Lemma pop_root_witness :
  pop descending [] = (Normal None, []) /\
  match pop descending [5; 4; 3; 1] with
  | (Normal r, d') => r = Some 5 /\ 5 :: d' ≡ₚ [5; 4; 3; 1]
  | (Throw e, _) => rejects descending e
  | (Wrong, _) => False
  end /\
  forall y, y ∈ [5; 4; 3; 1] -> not_negative descending y 5.
Proof.
  destruct (pop_root descending []) as [Hempty _].
  destruct (pop_root descending [5; 4; 3; 1]) as [_ Hfull].
  destruct (Hfull 5 eq_refl) as [Hpop Hmax].
  split; [exact (Hempty eq_refl)|]. split; [exact Hpop|].
  apply Hmax; [exact descending_consistent|].
  apply heap_propertyb_spec. reflexivity.
Defined.

(** C2 as stated fails in two ways.  When the comparator fails, [pop()] on
    a non-empty heap returns nothing and removes nothing.  And when the
    comparison function is not transitive, the element at index 0 of a heap
    that satisfies the heap property need not be a maximum: in
    [[0, 1, 2, 3]] every child compares equal to its parent, [pop()]
    returns [0], and [3] is strictly nearer the root than [0]. *)
Lemma pop_root_needs_ordering :
  pop always_rejects [3; 2; 1] = (Throw (Raised tt), [1; 2; 3]) /\
  (heap_property three_before_zero [0; 1; 2; 3] /\
   pop three_before_zero [0; 1; 2; 3] = (Normal (Some 0), [3; 1; 2]) /\
   3 ∈ [0; 1; 2; 3] /\
   ~ not_negative three_before_zero 3 0).
Proof.
  split; [reflexivity|]. split; [by apply heap_propertyb_spec|].
  split; [reflexivity|]. split; [set_solver|].
  intros H. specialize (H (-1) eq_refl). lia.
Qed.

(** ** Lengths *)

(** C3, as amended: for a heap of length [n], a [push] of [k] values that
    completes returns [n + k] and leaves the length [n + k]; a [pop()] on a
    non-empty heap that completes decreases the length by exactly 1, and
    one that the comparator makes fail leaves the length as it was.  Neither
    call ends in any other way. *)
Theorem push_pop_length {T E} (compare : T -> T -> promise E Z)
    (values d : list T) :
  match push compare values d with
  | (Normal r, d') => r = len d + len values /\ len d' = len d + len values
  | (Throw e, _) => rejects compare e
  | (Wrong, _) => False
  end /\
  (d <> [] ->
   match pop compare d with
   | (Normal _, d') => len d' = len d - 1
   | (Throw e, d') => rejects compare e /\ len d' = len d
   | (Wrong, _) => False
   end).
Proof.
  split.
  - pose proof (push_wp compare values d) as H. unfold wp in H.
    destruct (push compare values d) as [[r|e|] d']; [|tauto|done].
    destruct H as (-> & Hperm & _).
    apply len_Permutation in Hperm. rewrite Hperm.
    unfold len. rewrite length_app. lia.
  - intros Hne. pose proof (pop_wp compare d) as H. unfold wp in H.
    destruct (pop compare d) as [[r|e|] d']; [| |done].
    + destruct H as (-> & Hperm & _). destruct d as [|x d]; [done|].
      change (get (x :: d) 0) with (Some x) in Hperm.
      apply len_Permutation in Hperm. rewrite <- Hperm.
      unfold len. simpl. lia.
    + destruct H as (Hrej & Hperm & _). split; [done|].
      by apply len_Permutation.
Qed.

Lemma push_pop_length_witness :
  [5; 2] <> [] /\
  match push descending [4; 1; 3] [5; 2] with
  | (Normal r, d') => r = 2 + 3 /\ len d' = 2 + 3
  | (Throw e, _) => rejects descending e
  | (Wrong, _) => False
  end /\
  match pop descending [5; 2] with
  | (Normal _, d') => len d' = 2 - 1
  | (Throw e, d') => rejects descending e /\ len d' = 2
  | (Wrong, _) => False
  end.
Proof.
  destruct (push_pop_length descending [4; 1; 3] [5; 2]) as [Hpush Hpop].
  split; [discriminate|]. split; [exact Hpush|].
  apply Hpop. discriminate.
Defined.

(** C3 as stated fails when the comparator fails during [pop()]: the heap
    [[3, 2, 1]] is not empty, [pop()] throws, and the length is still 3. *)
Lemma pop_length_needs_completion :
  [3; 2; 1] <> [] /\
  pop always_rejects [3; 2; 1] = (Throw (Raised tt), [1; 2; 3]) /\
  len [1; 2; 3] <> len [3; 2; 1] - 1.
Proof. split; [discriminate|]. split; [reflexivity|]. discriminate. Qed.

(** ** Draining *)

(** C5, as amended: the values of [drain()] are those of repeated [pop()]
    until the heap is empty; when the drain completes the heap is empty
    ([isEmpty()] is true, the length is 0) and the values are the elements
    the heap had; a drain ends only by completing or by a failure of the
    comparator; the drain of an empty heap yields nothing; the heap's own
    async iteration yields the same values and empties the heap as well.
    The values come best first when the heap property held at the start and
    the comparison function is a consistent ordering. *)
Theorem drain_repeated_pop {T E} (compare : T -> T -> promise E Z)
    (d : list T) :
  drain compare d = pop_until_empty compare d /\
  match drain compare d with
  | (Normal vs, d') =>
      d' = [] /\ isEmpty (E := E) d' = (Normal true, d') /\
      length_ (E := E) d' = (Normal 0, d') /\ vs ≡ₚ d /\
      (consistent compare -> heap_property compare d ->
       best_first compare vs)
  | (Throw e, _) => rejects compare e
  | (Wrong, _) => False
  end /\
  drain compare [] = (Normal [], []) /\
  asyncIterator compare d = drain compare d.
Proof.
  split; [|split; [|split]]; [| |done|done].
  - unfold drain, pop_until_empty, length_, bind, data_length.
    apply for_await_repeated_pop.
  - pose proof (drain_wp compare d) as H. unfold wp in H.
    destruct (drain compare d) as [[vs|e|] d']; [|done|done].
    destruct H as (-> & Hperm & Hbf). done.
Qed.

Lemma drain_repeated_pop_witness :
  drain descending [5; 4; 3; 1; 2] = (Normal [5; 4; 3; 2; 1], []) /\
  best_first descending [5; 4; 3; 2; 1].
Proof.
  destruct (drain_repeated_pop descending [5; 4; 3; 1; 2])
    as (_ & H & _).
  change (drain descending [5; 4; 3; 1; 2])
    with (Normal (E := unit) [5; 4; 3; 2; 1], @nil Z) in H.
  destruct H as (_ & _ & _ & _ & Hbf).
  split; [reflexivity|].
  apply Hbf; [exact descending_consistent|].
  apply heap_propertyb_spec. reflexivity.
Defined.

(** C5 as stated fails for a comparison function that is not an ordering:
    the heap [[0, 1, 2, 3]] satisfies the heap property for the comparator
    that only puts [3] before [0], its drain yields [0] first and [3] after
    it, and [3] is strictly nearer the root than [0]. *)
Lemma drain_best_first_needs_ordering :
  heap_property three_before_zero [0; 1; 2; 3] /\
  drain three_before_zero [0; 1; 2; 3] = (Normal [0; 3; 2; 1], []) /\
  ~ best_first three_before_zero [0; 3; 2; 1].
Proof.
  split; [by apply heap_propertyb_spec|]. split; [reflexivity|].
  intros H. apply StronglySorted_inv in H as [_ H].
  apply Forall_inv in H. specialize (H (-1) eq_refl). lia.
Qed.

(** The scenarios of the README: with the default ordering, [push(4, 1, 3,
    5, 2)], then [peek()] is 5, [pop()] is 5 and the drain yields
    [[4, 3, 2, 1]]; with the ascending comparator, [pop()] is 1 and the
    drain yields [[2, 3, 4, 5]]. *)
Example readme_default :
  (do _ <- push descending [4; 1; 3; 5; 2];
   do top <- peek; do first <- pop descending;
   do vs <- drain descending; ret (top, first, vs)) [] =
  (Normal (Some 5, Some 5, [4; 3; 2; 1]), []).
Proof. reflexivity. Qed.

Example readme_ascending :
  (do _ <- push ascending [4; 1; 3; 5; 2];
   do first <- pop ascending;
   do vs <- drain ascending; ret (first, vs)) [] =
  (Normal (Some 1, [2; 3; 4; 5]), []).
Proof. reflexivity. Qed.

(** ** Failure of the comparator during [pop] *)

Section Failure.
Context {T E : Type}.
Variable compare : T -> T -> promise E Z.
Implicit Types (d : list T) (e : exn E).

Lemma chosen_child_bounds size k d g :
  0 <= k -> chosen_child compare size d (2 * (k + 1) - 1) (2 * (k + 1)) g ->
  2 * (k + 1) - 1 < size -> k < g < size.
Proof.
  intros Hk [[Hs ->]|(Hs & l & r & c & _ & _ & _ & ->)] Hlt; [lia|].
  destruct (c <=? 0); lia.
Qed.

Lemma greatestChild_run size d left right greatest :
  chosen_child compare size d left right greatest ->
  greatestChild compare size left right d = (Normal greatest, d).
Proof.
  unfold greatestChild.
  intros [[Hs ->]|(Hs & l & r & c & Hl & Hr & Hc & ->)].
  - by destruct (Z.leb_spec size right); [|lia].
  - destruct (Z.leb_spec size right); [lia|].
    unfold bind, read. rewrite Hl, Hr. unfold await. by rewrite Hc.
Qed.

(** The choice of the child, and the comparison that fails in it. *)
Lemma greatestChild_chosen size k d :
  0 <= k -> 2 * (k + 1) - 1 < size <= len d ->
  wp (greatestChild compare size (2 * (k + 1) - 1) (2 * (k + 1))) d
    (fun g d' =>
       d' = d /\
       chosen_child compare size d (2 * (k + 1) - 1) (2 * (k + 1)) g)
    (fun e d' =>
       d' = d /\
       exists l r, 2 * (k + 1) < size /\
                   get d (2 * (k + 1) - 1) = Some l /\
                   get d (2 * (k + 1)) = Some r /\
                   compare l r = Rejected e).
Proof.
  intros Hk Hsize. unfold greatestChild.
  destruct (Z.leb_spec size (2 * (k + 1))) as [Hr|Hr].
  - apply wp_ret. split; [done|]. by left.
  - destruct (get_lt_Some d (2 * (k + 1) - 1)) as [l Hl]; [lia|].
    destruct (get_lt_Some d (2 * (k + 1))) as [r Hrv]; [lia|].
    apply wp_bind. eapply wp_read; [exact Hl|].
    apply wp_bind. eapply wp_read; [exact Hrv|].
    apply wp_bind. apply wp_await. destruct (compare l r) as [c|e] eqn:Hc.
    + apply wp_ret. split; [done|]. right. split; [done|]. by exists l, r, c.
    + split; [done|]. by exists l, r.
Qed.

(** When the loop throws, a comparison that it made was rejected, and the
    array is the one of that comparison. *)
Lemma pop_while_throws fuel : forall size k d,
  0 <= k -> size <= len d -> (Z.to_nat (size - k) <= fuel)%nat ->
  wp (pop_while compare fuel size k (2 * (k + 1)) (2 * (k + 1) - 1)) d
    (fun _ _ => True)
    (fun e d' => exists a b,
       sift_compares compare size k d a b d' /\ compare a b = Rejected e).
Proof.
  induction fuel as [|fuel IH]; intros size k d Hk Hsize Hfuel;
    rewrite pop_while_unfold;
    (destruct (Z.ltb_spec (2 * (k + 1) - 1) size) as [Hlt|Hge];
     [|by apply wp_ret]); [lia|].
  apply wp_bind.
  eapply wp_mono; [apply greatestChild_chosen; lia| |]; cbv beta.
  - intros g d' [-> Hg].
    pose proof (chosen_child_bounds _ _ _ _ Hk Hg Hlt) as Hgb.
    destruct (get_lt_Some d g) as [gv Hgv]; [lia|].
    destruct (get_lt_Some d k) as [kv Hkv]; [lia|].
    apply wp_bind. eapply wp_read; [exact Hgv|].
    apply wp_bind. eapply wp_read; [exact Hkv|].
    apply wp_bind. apply wp_await. destruct (compare gv kv) as [c|e] eqn:Hc.
    + destruct (Z.ltb_spec c 0) as [Hneg|Hpos]; [|by apply wp_ret].
      destruct (swap_Some d k g) as (x' & y' & _ & _ & Hswap); [lia|lia|].
      apply wp_bind. eapply wp_swap_data; [exact Hswap|].
      pose proof (swap_len _ _ _ _ Hswap) as Hlen.
      eapply wp_mono; [apply IH; lia| |]; cbv beta; [done|].
      intros e d' (a & b & Hab & Hrej). exists a, b. split; [|done].
      by eapply compares_below.
    + exists gv, kv. split; [|done]. by eapply compares_parent.
  - intros e d' (-> & l & r & Hr & Hl & Hrv & Hrej).
    exists l, r. split; [|done]. by apply compares_children.
Qed.

(** A rejected comparison of the loop ends it with the exception, on the
    array of that comparison. *)
Lemma sift_compares_throws size k d a b d' e :
  sift_compares compare size k d a b d' -> compare a b = Rejected e ->
  forall fuel, 0 <= k -> size <= len d -> (Z.to_nat (size - k) <= fuel)%nat ->
    pop_while compare fuel size k (2 * (k + 1)) (2 * (k + 1) - 1) d =
    (Throw e, d').
Proof.
  intros H Hrej.
  induction H as [k d l r Hr Hl Hrv|k d g gv kv Hlt Hg Hgv Hkv
                 |k d g gv kv c d1 a b d' Hlt Hg Hgv Hkv Hc Hneg Hswap H IH];
    intros fuel Hk Hsize Hfuel; rewrite pop_while_unfold;
    (destruct (Z.ltb_spec (2 * (k + 1) - 1) size); [|lia]);
    (destruct fuel as [|fuel]; [lia|]).
  - unfold bind, greatestChild.
    destruct (Z.leb_spec size (2 * (k + 1))); [lia|].
    unfold bind, read. rewrite Hl, Hrv. unfold await. by rewrite Hrej.
  - unfold bind. rewrite (greatestChild_run _ _ _ _ _ Hg).
    unfold read. rewrite Hgv, Hkv. unfold await. by rewrite Hrej.
  - pose proof (chosen_child_bounds _ _ _ _ Hk Hg Hlt) as Hgb.
    unfold bind. rewrite (greatestChild_run _ _ _ _ _ Hg).
    unfold read. rewrite Hgv, Hkv. unfold await. rewrite Hc.
    destruct (Z.ltb_spec c 0); [|lia].
    unfold swap_data. rewrite Hswap.
    apply IH; [done|lia|by rewrite (swap_len _ _ _ _ Hswap)|lia].
Qed.

Lemma pop_run d d1 :
  d <> [] -> swap d 0 (len d - 1) = Some d1 ->
  pop compare d =
  (do _ <- pop_while compare (Z.to_nat (len d - 1)) (len d - 1) 0
             (2 * (0 + 1)) (2 * (0 + 1) - 1);
   data_pop) d1.
Proof.
  intros Hne Hswap. unfold pop, bind at 1, data_length.
  destruct (Z.eqb_spec (len d) 0) as [Hz|_]; [by apply len_0_nil in Hz|].
  cbv zeta. unfold bind at 1, swap_data. by rewrite Hswap.
Qed.

Lemma pop_compares_throws d a b d' e :
  pop_compares compare d a b d' -> compare a b = Rejected e ->
  pop compare d = (Throw e, d').
Proof.
  intros (d1 & Hne & Hswap & H) Hrej. rewrite (pop_run _ _ Hne Hswap).
  unfold bind.
  rewrite (sift_compares_throws _ _ _ _ _ _ _ H Hrej);
    [done|lia|rewrite (swap_len _ _ _ _ Hswap); lia|lia].
Qed.

Lemma pop_throws_compares d e d' :
  pop compare d = (Throw e, d') ->
  exists a b, pop_compares compare d a b d' /\ compare a b = Rejected e.
Proof.
  intros Hpop.
  assert (Hne : d <> []) by (intros ->; discriminate Hpop).
  pose proof (len_nonneg d).
  assert (len d <> 0) by (intros Hz; by apply len_0_nil in Hz).
  destruct (swap_Some d 0 (len d - 1)) as (x & y & _ & _ & Hswap);
    [lia|lia|].
  rewrite (pop_run _ _ Hne Hswap) in Hpop. unfold bind in Hpop.
  pose proof (pop_while_throws (Z.to_nat (len d - 1)) (len d - 1) 0
                (set (set d 0 y) (len d - 1) x)) as Hw.
  unfold wp in Hw.
  destruct (pop_while _ _ _ _ _ _ _) as [[[]|e0|] d0].
  - unfold data_pop in Hpop. by destruct (last d0).
  - injection Hpop as -> ->.
    destruct Hw as (a & b & Hab & Hrej);
      [lia|rewrite (swap_len _ _ _ _ Hswap); lia|lia|].
    exists a, b. split; [|done]. by eexists.
  - discriminate Hpop.
Qed.

(** The first comparison of [pop()] on three elements or more is the one
    of the elements at the indices 1 and 2. *)
Lemma pop_compares_first d d1 a b :
  3 <= len d -> get d 1 = Some a -> get d 2 = Some b ->
  swap d 0 (len d - 1) = Some d1 ->
  pop_compares compare d a b d1.
Proof.
  intros Hlen Ha Hb Hswap. exists d1.
  split; [intros ->; unfold len in Hlen; simpl in Hlen; lia|].
  split; [done|].
  assert (Hl : get d1 (2 * (0 + 1) - 1) = Some a).
  { rewrite (swap_get_other _ _ _ _ _ Hswap); [done|lia|lia]. }
  destruct (Z.eq_dec (len d) 3) as [H3|H3].
  - eapply compares_parent; [lia|left; split; [lia|reflexivity]|exact Hl|].
    rewrite (swap_get_a _ _ _ _ Hswap).
    by replace (len d - 1) with 2 by lia.
  - apply compares_children; [lia|exact Hl|].
    rewrite (swap_get_other _ _ _ _ _ Hswap); [done|lia|lia].
Qed.

End Failure.

(** C6: when the comparison function fails during [pop()] on a non-empty
    heap, that is when a comparison that [pop()] makes is rejected, [pop()]
    throws what the comparator raised; the sift-down stops there, the array
    is left as it was at that comparison; the first swap is not undone: no
    element is removed, the array is a permutation of what it was and the
    old root sits in the last slot.  Conversely [pop()] throws only what a
    comparison that it made was rejected with, and it returns only when
    every comparison that it made was fulfilled.  On three elements or
    more the first comparison is the one of the elements at the indices 1
    and 2: when it fails, the array is exactly the one after the first
    swap, with the last element at the root.  The array can be left without
    the heap property: for the comparator that fails on [(4, 1)], the heap
    [[5, 4, 3, 1]] is left as [[1, 4, 3, 5]]. *)
Theorem pop_comparator_failure {T E} (compare : T -> T -> promise E Z)
    (d : list T) :
  (forall a b e d', pop_compares compare d a b d' ->
     compare a b = Rejected e ->
     pop compare d = (Throw e, d') /\
     d <> [] /\ len d' = len d /\ d' ≡ₚ d /\ get d' (len d - 1) = get d 0) /\
  (forall e d', pop compare d = (Throw e, d') ->
     (exists a b, pop_compares compare d a b d' /\ compare a b = Rejected e) /\
     d <> [] /\ rejects compare e /\ len d' = len d /\ d' ≡ₚ d /\
     get d' (len d - 1) = get d 0) /\
  (forall v d', pop compare d = (Normal v, d') ->
     forall a b d2, pop_compares compare d a b d2 ->
       exists c, compare a b = Fulfilled c) /\
  (forall a b e d1, 3 <= len d -> get d 1 = Some a -> get d 2 = Some b ->
     compare a b = Rejected e -> swap d 0 (len d - 1) = Some d1 ->
     pop_compares compare d a b d1 /\
     pop compare d = (Throw e, d1) /\ get d1 0 = get d (len d - 1)) /\
  (heap_property rejects_4_1 [5; 4; 3; 1] /\
   pop rejects_4_1 [5; 4; 3; 1] = (Throw (Raised tt), [1; 4; 3; 5]) /\
   ~ heap_property rejects_4_1 [1; 4; 3; 5]).
Proof.
  assert (Hthrow : forall e d', pop compare d = (Throw e, d') ->
            d <> [] /\ rejects compare e /\ len d' = len d /\ d' ≡ₚ d /\
            get d' (len d - 1) = get d 0).
  { intros e d' Hpop. pose proof (pop_wp compare d) as H.
    assert (Hne : d <> []) by (intros ->; discriminate Hpop).
    apply (wp_Throw _ _ _ _ _ _ H) in Hpop as (Hrej & Hperm & Hlast).
    split; [done|].
    split; [done|]. split; [by apply len_Permutation|]. done. }
  split; [|split; [|split; [|split]]].
  - intros a b e d' Hab Hrej.
    pose proof (pop_compares_throws _ _ _ _ _ _ Hab Hrej) as Hpop.
    split; [done|]. destruct (Hthrow e d' Hpop) as (? & _ & ? & ? & ?). done.
  - intros e d' Hpop. split; [by apply pop_throws_compares|]. by apply Hthrow.
  - intros v d' Hpop a b d2 Hab. destruct (compare a b) as [c|e] eqn:Hc.
    + by exists c.
    + rewrite (pop_compares_throws _ _ _ _ _ _ Hab Hc) in Hpop.
      discriminate Hpop.
  - intros a b e d1 Hlen Ha Hb Hrej Hswap.
    pose proof (pop_compares_first compare _ _ _ _ Hlen Ha Hb Hswap) as Hab.
    split; [done|]. split; [by apply (pop_compares_throws _ _ _ _ _ _ Hab)|].
    apply (swap_get_a _ _ _ _ Hswap).
  - split; [by apply heap_propertyb_spec|]. split; [reflexivity|].
    intros H. apply heap_propertyb_spec in H. discriminate H.
Qed.

Lemma pop_comparator_failure_witness :
  pop rejects_4_1 [5; 4; 3; 1] = (Throw (Raised tt), [1; 4; 3; 5]) /\
  pop rejects_6_3 [9; 8; 7; 6; 5; 4; 3] =
    (Throw (Raised tt), [8; 3; 7; 6; 5; 4; 9]) /\
  rejects rejects_4_1 (Raised tt) /\
  len [1; 4; 3; 5] = len [5; 4; 3; 1] /\
  get [1; 4; 3; 5] (len [5; 4; 3; 1] - 1) = get [5; 4; 3; 1] 0 /\
  pop always_rejects [3; 2; 1] = (Throw (Raised tt), [1; 2; 3]) /\
  pop rejects_5_4 [9; 5; 4; 1; 0] = (Throw (Raised tt), [0; 5; 4; 1; 9]).
Proof.
  destruct (pop_comparator_failure rejects_4_1 [5; 4; 3; 1])
    as (H1 & H2 & _).
  destruct (H1 4 1 (Raised tt) [1; 4; 3; 5]) as (Hpop & _); [|reflexivity|].
  { exists [1; 4; 3; 5]. split; [done|]. split; [reflexivity|].
    apply (compares_parent _ _ _ _ 1); [unfold len; simpl; lia| |done|done].
    right. split; [unfold len; simpl; lia|]. by exists 4, 3, (-1). }
  destruct (H2 (Raised tt) [1; 4; 3; 5] Hpop) as (_ & _ & Hrej & Hlen & _ & Hlast).
  destruct (pop_comparator_failure rejects_6_3 [9; 8; 7; 6; 5; 4; 3])
    as (H3 & _).
  destruct (H3 6 3 (Raised tt) [8; 3; 7; 6; 5; 4; 9]) as (Hpop2 & _);
    [|reflexivity|].
  { exists [3; 8; 7; 6; 5; 4; 9]. split; [done|]. split; [reflexivity|].
    apply (compares_below _ _ _ _ 1 8 3 (-1) [8; 3; 7; 6; 5; 4; 9]);
      [unfold len; simpl; lia| |done|done|done|lia|done|].
    { right. split; [unfold len; simpl; lia|]. by exists 8, 7, (-1). }
    apply (compares_parent _ _ _ _ 3); [unfold len; simpl; lia| |done|done].
    right. split; [unfold len; simpl; lia|]. by exists 6, 5, (-1). }
  destruct (pop_comparator_failure always_rejects [3; 2; 1])
    as (_ & _ & _ & H4 & _).
  destruct (H4 2 1 (Raised tt) [1; 2; 3]) as (_ & Hpop3 & _);
    [unfold len; simpl; lia|reflexivity|reflexivity|reflexivity|reflexivity|].
  destruct (pop_comparator_failure rejects_5_4 [9; 5; 4; 1; 0])
    as (_ & _ & _ & H5 & _).
  destruct (H5 5 4 (Raised tt) [0; 5; 4; 1; 9]) as (_ & Hpop4 & _);
    [unfold len; simpl; lia|reflexivity|reflexivity|reflexivity|reflexivity|].
  repeat split; done.
Defined.

(** ** Ties between the children *)


Section Ext.
Context {T E : Type}.
Variables compare compare' : T -> T -> promise E Z.
Hypothesis compare_ext : forall a b, compare a b = compare' a b.




End Ext.



(** The test "edge case 2": three points with equal [x] drain in the order
    [(0, 1)], [(0, 3)], [(0, 2)]. *)
Example equal_points_drain :
  (do _ <- push by_x [(0, 1); (0, 2); (0, 3)]; drain by_x) [] =
  (Normal [(0, 1); (0, 3); (0, 2)], []).
Proof. reflexivity. Qed.

(** ** Heap objects: what the calls do to the store *)

Section StoreLemmas.
Context {T E V : Type}.
Variable less : T -> T -> bool.
Implicit Types (s : Obj.store (T := T) (E := E)) (d : list T).

Lemma with_array_same s a d :
  Obj.arrays s !! a = Some d -> Obj.with_array s a d = s.
Proof.
  intros H. destruct s as [ar hs]. unfold Obj.with_array. simpl in *.
  by rewrite insert_id.
Qed.

Lemma with_array_twice s a d1 d2 :
  Obj.with_array (Obj.with_array s a d1) a d2 = Obj.with_array s a d2.
Proof. unfold Obj.with_array. simpl. by rewrite insert_insert_eq. Qed.

Lemma method_run {A} this (body : (T -> T -> promise E Z) -> M (list T) E A)
    s h d :
  Obj.heaps s !! this = Some h -> Obj.arrays s !! Obj.data h = Some d ->
  Obj.method this body s =
  ((body (Obj.compare h) d).1,
   Obj.with_array s (Obj.data h) (body (Obj.compare h) d).2).
Proof.
  intros Hh Hd. unfold Obj.method. rewrite Hh, Hd.
  by destruct (body (Obj.compare h) d).
Qed.

Lemma constructor_function f s :
  Obj.constructor less (Obj.Function f) s =
  (Normal (fresh (dom (Obj.heaps s))), constructed s f).
Proof. reflexivity. Qed.

Lemma constructor_undefined s :
  Obj.constructor less Obj.Undefined s =
  (Normal (fresh (dom (Obj.heaps s))),
   constructed s (Obj.default_compare less)).
Proof. reflexivity. Qed.

Lemma constructor_not_function v s :
  Obj.typeof v <> "function"%string -> v <> Obj.Undefined ->
  Obj.constructor less v s =
  (Throw (TypeError Obj.not_a_function),
   {| Obj.arrays := <[fresh (dom (Obj.arrays s)) := []]> (Obj.arrays s);
      Obj.heaps := Obj.heaps s |}).
Proof. by destruct v. Qed.

Lemma fresh_array s : Obj.arrays s !! fresh (dom (Obj.arrays s)) = None.
Proof. apply not_elem_of_dom, is_fresh. Qed.

Lemma fresh_heap s : Obj.heaps s !! fresh (dom (Obj.heaps s)) = None.
Proof. apply not_elem_of_dom, is_fresh. Qed.

Lemma constructed_heap s f :
  Obj.heaps (constructed s f) !! fresh (dom (Obj.heaps s)) =
  Some {| Obj.data := fresh (dom (Obj.arrays s)); Obj.compare := f |}.
Proof. unfold constructed. simpl. apply lookup_insert_eq. Qed.

Lemma constructed_array s f :
  Obj.arrays (constructed s f) !! fresh (dom (Obj.arrays s)) = Some [].
Proof. unfold constructed. simpl. apply lookup_insert_eq. Qed.

Lemma constructed_contents s f :
  Obj.contents (constructed s f) (fresh (dom (Obj.heaps s))) = Some [].
Proof.
  unfold Obj.contents. rewrite (constructed_heap s f).
  exact (constructed_array s f).
Qed.

Lemma contents_Some s this d :
  Obj.contents s this = Some d <->
  exists h, Obj.heaps s !! this = Some h /\
            Obj.arrays s !! Obj.data h = Some d.
Proof.
  unfold Obj.contents. destruct (Obj.heaps s !! this) as [h|]; simpl.
  - split; [eauto|]. by intros (h' & [= <-] & H).
  - split; [done|]. by intros (h' & ? & _).
Qed.

Lemma contents_with_array s this h d :
  Obj.heaps s !! this = Some h ->
  Obj.contents (Obj.with_array s (Obj.data h) d) this = Some d.
Proof.
  intros Hh. apply contents_Some. exists h. split; [done|].
  simpl. apply lookup_insert_eq.
Qed.

(** Pushing the values one by one is one [push] of all of them. *)
Lemma push_each_run values : forall s this h d,
  Obj.heaps s !! this = Some h -> Obj.arrays s !! Obj.data h = Some d ->
  Obj.push_each this values s =
  ((push_for (Obj.compare h) values d).1,
   Obj.with_array s (Obj.data h) (push_for (Obj.compare h) values d).2).
Proof.
  induction values as [|v values IH]; intros s this h d Hh Hd.
  - simpl. by rewrite with_array_same.
  - simpl. unfold bind at 1. unfold Obj.push.
    rewrite (method_run _ _ _ _ _ Hh Hd).
    unfold push, push_for, bind.
    destruct (push_value (Obj.compare h) v d) as [[[]|e|] d1]; simpl;
      [|done|done].
    rewrite (IH _ this h d1); [|done|simpl; apply lookup_insert_eq].
    by rewrite with_array_twice.
Qed.

End StoreLemmas.

(** ** Construction *)

(** C7, as amended: for every value that is not callable, other than
    [undefined], construction throws a [TypeError] at once and no heap
    object is produced; construction with a function, or with the argument
    omitted or [undefined] (the default comparator is used then), succeeds
    and produces a new, empty heap. *)
Theorem constructor_checks_compare {T E} (less : T -> T -> bool)
    (v : Obj.value) (s : Obj.store (T := T) (E := E)) :
  (Obj.typeof v <> "function"%string -> v <> Obj.Undefined ->
   exists s', Obj.constructor less v s =
                (Throw (TypeError Obj.not_a_function), s') /\
              Obj.heaps s' = Obj.heaps s) /\
  (Obj.typeof v = "function"%string \/ v = Obj.Undefined ->
   exists this s', Obj.constructor less v s = (Normal this, s') /\
                   Obj.heaps s !! this = None /\
                   Obj.contents s' this = Some [] /\
                   Obj.isEmpty this s' = (Normal true, s')).
Proof.
  split.
  - intros Htype Hundef. eexists. split.
    + by apply constructor_not_function.
    + done.
  - intros Hv.
    assert (exists f, Obj.constructor less v s =
                      (Normal (fresh (dom (Obj.heaps s))), constructed s f))
      as [f Hf].
    { destruct Hv as [Hv| ->].
      - destruct v; try done. eexists. apply constructor_function.
      - eexists. apply constructor_undefined. }
    exists (fresh (dom (Obj.heaps s))), (constructed s f).
    split; [done|]. split; [apply fresh_heap|].
    split; [apply constructed_contents|].
    unfold Obj.isEmpty.
    rewrite (method_run _ _ _ _ _ (constructed_heap s f) (constructed_array s f)).
    simpl. f_equal. apply with_array_same. apply (constructed_array s f).
Qed.

Lemma constructor_checks_compare_witness :
  (exists s', Obj.constructor Z.ltb (Obj.Object (T := Z) (E := unit))
                Obj.empty_store =
              (Throw (TypeError Obj.not_a_function), s') /\
              Obj.heaps s' = ∅) /\
  (exists this s', Obj.constructor Z.ltb (Obj.Function descending)
                     Obj.empty_store = (Normal this, s') /\
                   Obj.contents s' this = Some []).
Proof.
  split.
  - destruct (constructor_checks_compare Z.ltb
                (Obj.Object (T := Z) (E := unit)) Obj.empty_store)
      as [H _].
    apply H; discriminate.
  - destruct (constructor_checks_compare Z.ltb
                (Obj.Function descending) Obj.empty_store)
      as [_ H].
    destruct H as (this & s' & Hc & _ & Hcontents & _); [by left|].
    by exists this, s'.
Defined.

(** C7 as stated fails for [undefined]: it is a value that is not callable,
    and [new BinaryHeap(undefined)] succeeds, because the default of the
    parameter is used. *)
Lemma constructor_undefined_succeeds :
  Obj.typeof (Obj.Undefined (T := Z) (E := unit)) <> "function"%string /\
  (Obj.constructor Z.ltb (Obj.Undefined (T := Z) (E := unit))
     Obj.empty_store).1 = Normal 1%positive.
Proof. split; [discriminate|reflexivity]. Qed.

(** ** Bulk construction *)

Lemma default_compare_never_rejects {T E} (less : T -> T -> bool) e :
  ~ rejects (Obj.default_compare (E := E) less) e.
Proof. by intros (a & b & H). Qed.

(** For every iterable, the heap that [from] builds from it without
    options and a new heap with the default ordering into which the
    elements are pushed one by one drain to the same values in the same
    order (the two heaps are the same, array and all), and these values are
    the elements of the iterable. *)
Lemma from_items_as_pushes {T E V} (less : T -> T -> bool)
    (items : list T) (s : Obj.store (T := T) (E := E)) :
  exists vs s',
    (do h <- Obj.from (V := V) less (Obj.Items items) None; Obj.drain h) s =
      (Normal vs, s') /\
    (do h <- Obj.constructor less Obj.Undefined;
     do _ <- Obj.push_each h items;
     Obj.drain h) s = (Normal vs, s') /\
    vs ≡ₚ items.
Proof.
  set (cmp := Obj.default_compare (E := E) less).
  set (l := fresh (dom (Obj.heaps s))).
  set (a := fresh (dom (Obj.arrays s))).
  pose proof (constructed_heap s cmp) as Hh.
  pose proof (constructed_array s cmp) as Ha.
  (* the pushes *)
  pose proof (push_for_wp cmp items []) as Hpush. unfold wp in Hpush.
  destruct (push_for cmp items []) as [[[]|e|] d1] eqn:Hfor;
    [|by destruct Hpush as [?%default_compare_never_rejects _]|done].
  destruct Hpush as [Hperm1 _]. simpl in Hperm1.
  (* the drain *)
  pose proof (drain_wp cmp d1) as Hdrain. unfold wp in Hdrain.
  destruct (drain cmp d1) as [[vs|e|] d2] eqn:Hdr;
    [|by apply default_compare_never_rejects in Hdrain|done].
  destruct Hdrain as (-> & Hperm2 & _).
  set (s1 := Obj.with_array (constructed s cmp) a d1).
  assert (Hh1 : Obj.heaps s1 !! l =
                Some {| Obj.data := a; Obj.compare := cmp |}) by exact Hh.
  assert (Ha1 : Obj.arrays s1 !! a = Some d1) by apply lookup_insert_eq.
  exists vs, (Obj.with_array s1 a []).
  split; [|split].
  - unfold Obj.from; simpl. unfold bind.
    rewrite constructor_undefined. simpl.
    unfold Obj.push. rewrite (method_run _ _ _ _ _ Hh Ha). simpl.
    unfold push, bind. rewrite Hfor. simpl.
    unfold Obj.drain. rewrite (method_run _ _ _ _ _ Hh1 Ha1). simpl.
    by rewrite Hdr.
  - unfold bind. rewrite constructor_undefined.
    rewrite (push_each_run _ _ _ _ _ Hh Ha). simpl. rewrite Hfor. simpl.
    unfold Obj.drain. rewrite (method_run _ _ _ _ _ Hh1 Ha1). simpl.
    by rewrite Hdr.
  - by rewrite Hperm2, Hperm1.
Qed.

(** C4: [from] without options against a new heap with the default
    ordering into which the same elements are pushed one by one.  For an
    iterable the two drain to the same values in the same order.  For an
    array-like object that is not iterable, which the signature of [from]
    admits and which [from] converts with [Array.from] when there is a
    [map] option, the code does not build the heap: without [map] nothing
    is converted, the spread of the values throws a [TypeError] and only
    the new, empty heap is left, whereas the pushes one by one complete and
    drain to the elements.  [from({ length: 3, 0: 4, 1: 2, 2: 7 })] throws;
    the pushes of 4, 2 and 7 drain to [[7, 4, 2]], and so does [from] on
    the same object with the map [v => v]. *)
Theorem from_array_like_throws {T E V} (less : T -> T -> bool)
    (items : list T) (s : Obj.store (T := T) (E := E)) :
  (exists vs s',
     (do h <- Obj.from (V := V) less (Obj.Items items) None; Obj.drain h) s =
       (Normal vs, s') /\
     (do h <- Obj.constructor less Obj.Undefined;
      do _ <- Obj.push_each h items;
      Obj.drain h) s = (Normal vs, s') /\
     vs ≡ₚ items) /\
  ((do h <- Obj.from (V := V) less (Obj.ArrayLike items) None;
    Obj.drain h) s =
     (Throw (TypeError Obj.not_iterable),
      constructed s (Obj.default_compare less)) /\
   exists vs s',
     (do h <- Obj.constructor less Obj.Undefined;
      do _ <- Obj.push_each h items;
      Obj.drain h) s = (Normal vs, s') /\
     vs ≡ₚ items) /\
  (((do h <- Obj.from (E := unit) (V := unit) Z.ltb
               (Obj.ArrayLike [4; 2; 7]) None;
     Obj.drain h) Obj.empty_store).1 = Throw (TypeError Obj.not_iterable) /\
   ((do h <- Obj.constructor (E := unit) Z.ltb Obj.Undefined;
     do _ <- Obj.push_each h [4; 2; 7];
     Obj.drain h) Obj.empty_store).1 = Normal [7; 4; 2] /\
   ((do h <- Obj.from Z.ltb (Obj.ArrayLike [4; 2; 7]) (Some identity_options);
     Obj.drain h) Obj.empty_store).1 = Normal [7; 4; 2] /\
   ((do h <- Obj.from (E := unit) (V := unit) Z.ltb
               (Obj.Items [4; 2; 7]) None;
     Obj.drain h) Obj.empty_store).1 = Normal [7; 4; 2]).
Proof.
  pose proof (from_items_as_pushes (V := V) less items s)
    as (vs & s' & Hfrom & Hpush & Hperm).
  split; [by exists vs, s'|]. split; [|by repeat split].
  split; [|by exists vs, s'].
  unfold bind at 1. unfold Obj.from; simpl. reflexivity.
Qed.

(** The values of the tests, built in bulk. *)
Example from_items_drain :
  ((do h <- Obj.from (E := unit) (V := unit) Z.ltb
              (Obj.Items [-10; 9; -1; 100; 9; 1; 0; 9; -100; 10; -9]) None;
    Obj.drain h) Obj.empty_store).1 =
  Normal [100; 10; 9; 9; 9; 1; 0; -1; -9; -10; -100].
Proof. reflexivity. Qed.

Lemma Array_from_spec {T E V} (mapFn : option V -> T -> Z -> result E T)
    (thisArg : option V) (items : list T) :
  forall k (s : Obj.store (T := T) (E := E)),
    wp (Obj.Array_from mapFn thisArg items k) s
      (fun values s' =>
         s' = s /\ length values = length items /\
         forall (i : nat) x, items !! i = Some x ->
           exists y, mapFn thisArg x (k + Z.of_nat i) = Return y /\
                     values !! i = Some y)
      (fun e s' =>
         s' = s /\
         exists (i : nat) x, items !! i = Some x /\
                             mapFn thisArg x (k + Z.of_nat i) = Raise e).
Proof.
  induction items as [|x items IH]; intros k s; simpl.
  - apply wp_ret. by repeat split.
  - destruct (mapFn thisArg x k) as [y|e] eqn:Hy.
    + apply wp_bind. eapply wp_mono; [apply IH| |]; cbv beta.
      * intros ys s' (-> & Hlen & Hmap). apply wp_ret.
        split; [done|]. split; [simpl; by rewrite Hlen|].
        intros [|i] x' Hx'; simpl in Hx'.
        -- injection Hx' as <-. exists y. by rewrite Z.add_0_r.
        -- destruct (Hmap i x' Hx') as (y' & Hy' & Hv). exists y'.
           split; [|done]. rewrite <- Hy'. f_equal. lia.
      * intros e s' (-> & i & x' & Hx' & He). split; [done|].
        exists (S i), x'. split; [done|]. rewrite <- He. f_equal. lia.
    + apply wp_throw. split; [done|]. exists 0%nat, x.
      split; [done|]. by rewrite Z.add_0_r.
Qed.

(** C9: for every source sequence, [from] with a [map] option inserts, for
    each source element, the result of the transform applied to the element
    and its index in the sequence, called with [thisArg] as receiver: the
    heap it returns holds exactly these values.  [from] ends only with such
    a heap, with an exception of the transform, or with one of the
    comparator.  Built from [[4, 2, 7]] with the map [n => n * 2], the heap
    has length 3 and drains to [[14, 8, 4]].  With a [map] option, [from]
    does on an array-like object that is not iterable what it does on an
    iterable with the same elements. *)
Theorem from_map_applies_transform :
  (forall T E V (less : T -> T -> bool) (items : list T)
          (mapFn : option V -> T -> Z -> result E T) (thisArg : option V)
          (compare : option (T -> T -> promise E Z))
          (s : Obj.store (T := T) (E := E)),
     match
       Obj.from less (Obj.Items items)
         (Some {| Obj.opt_compare := compare; Obj.opt_map := Some mapFn;
                  Obj.opt_thisArg := thisArg |}) s
     with
     | (Normal this, s') =>
         exists values d,
           length values = length items /\
           (forall (i : nat) x, items !! i = Some x ->
              exists y, mapFn thisArg x (Z.of_nat i) = Return y /\
                        values !! i = Some y) /\
           Obj.contents s' this = Some d /\ d ≡ₚ values
     | (Throw e, _) =>
         (exists (i : nat) x, items !! i = Some x /\
                              mapFn thisArg x (Z.of_nat i) = Raise e) \/
         rejects (default (Obj.default_compare less) compare) e
     | (Wrong, _) => False
     end) /\
  ((do h <- Obj.from Z.ltb (Obj.Items [4; 2; 7]) (Some double_options);
    do n <- Obj.length h;
    do vs <- Obj.drain h;
    ret (n, vs)) Obj.empty_store).1 = Normal (3, [14; 8; 4]) /\
  (forall T E V (less : T -> T -> bool) (items : list T)
          (mapFn : option V -> T -> Z -> result E T) (thisArg : option V)
          (compare : option (T -> T -> promise E Z))
          (s : Obj.store (T := T) (E := E)),
     Obj.from less (Obj.ArrayLike items)
       (Some {| Obj.opt_compare := compare; Obj.opt_map := Some mapFn;
                Obj.opt_thisArg := thisArg |}) s =
     Obj.from less (Obj.Items items)
       (Some {| Obj.opt_compare := compare; Obj.opt_map := Some mapFn;
                Obj.opt_thisArg := thisArg |}) s).
Proof.
  split; [|split; [reflexivity|]]; cycle 1.
  { intros T E V less items mapFn thisArg compare s.
    unfold Obj.from. simpl. unfold bind.
    by destruct compare as [f|];
      rewrite ?constructor_function, ?constructor_undefined. }
  intros T E V less items mapFn thisArg compare s.
  unfold Obj.from. simpl.
  set (f := default (Obj.default_compare less) compare).
  assert (Hf : match compare with
               | Some f => Obj.constructor less (Obj.Function f)
               | None => Obj.constructor less Obj.Undefined
               end s = (Normal (fresh (dom (Obj.heaps s))), constructed s f)).
  { destruct compare as [g|];
      [apply constructor_function|apply constructor_undefined]. }
  unfold bind at 1 2. rewrite Hf. simpl. unfold bind at 1. unfold bind at 1.
  pose proof (Array_from_spec mapFn thisArg items 0 (constructed s f))
    as Hvalues.
  unfold wp in Hvalues.
  destruct (Obj.Array_from mapFn thisArg items 0 (constructed s f))
    as [[values|e|] s1]; [| |done].
  - destruct Hvalues as (-> & Hlen & Hmap).
    unfold bind, Obj.push, Obj.spread, ret. cbv beta iota.
    rewrite (method_run _ _ _ _ _ (constructed_heap s f) (constructed_array s f)).
    simpl.
    pose proof (push_wp f values []) as Hpush. unfold wp in Hpush.
    destruct (push f values []) as [[n|e|] d] eqn:Hp; simpl; [| |done].
    + destruct Hpush as (_ & Hperm & _). simpl in Hperm.
      exists values, d. split; [done|]. split; [exact Hmap|].
      split; [|done].
      apply (contents_with_array _ _ _ _ (constructed_heap s f)).
    + right. by destruct Hpush as [Hrej _].
  - left. by destruct Hvalues as (_ & Hraise).
Qed.

Lemma from_map_applies_transform_witness :
  exists values d,
    length values = length [4; 2; 7] /\
    (forall (i : nat) x, [4; 2; 7] !! i = Some x ->
       exists y, Return (E := unit) (x * 2) = Return y /\
                 values !! i = Some y) /\
    Obj.contents
      (Obj.from Z.ltb (Obj.Items [4; 2; 7]) (Some double_options)
         Obj.empty_store).2 1%positive = Some d /\
    d ≡ₚ values.
Proof.
  destruct from_map_applies_transform as [H _].
  exact (H Z unit unit Z.ltb [4; 2; 7] (fun _ n _ => Return (n * 2)) None None
           Obj.empty_store).
Defined.

(** ** Copies *)

Section Copies.
Context {T E V : Type}.
Variable less : T -> T -> bool.
Implicit Types (s : Obj.store (T := T) (E := E)) (d : list T).

Lemma separate_sym s a b : separate s a b -> separate s b a.
Proof.
  intros (Hne & ha & hb & da & db & Ha & Hb & Hd & Hda & Hdb).
  split; [done|]. exists hb, ha, db, da. by repeat split.
Qed.

Lemma separate_with_array s a b ha d :
  separate s a b -> Obj.heaps s !! a = Some ha ->
  separate (Obj.with_array s (Obj.data ha) d) a b /\
  Obj.contents (Obj.with_array s (Obj.data ha) d) b = Obj.contents s b.
Proof.
  intros (Hne & ha' & hb & da & db & Ha & Hb & Hd & Hda & Hdb) Hha.
  rewrite Hha in Ha. injection Ha as <-. split.
  - split; [done|]. exists ha, hb, d, db. simpl.
    split; [done|]. split; [done|]. split; [done|].
    split; [apply lookup_insert_eq|]. by rewrite lookup_insert_ne.
  - unfold Obj.contents. simpl. rewrite Hb. simpl.
    by rewrite lookup_insert_ne.
Qed.

Lemma bind_ret_tt_state {S A} (m : M S E A) (st : S) :
  (bind m (fun _ => ret tt) st).2 = (m st).2.
Proof. unfold bind. by destruct (m st) as [[a|e|] st']. Qed.

Lemma method_frame {A} s a b
    (body : (T -> T -> promise E Z) -> M (list T) E A) :
  separate s a b ->
  separate (Obj.method a body s).2 a b /\
  Obj.contents (Obj.method a body s).2 b = Obj.contents s b.
Proof.
  intros Hsep.
  destruct Hsep as (Hne & ha & hb & da & db & Ha & Hb & Hd & Hda & Hdb).
  rewrite (method_run _ _ _ _ _ Ha Hda). simpl.
  apply separate_with_array; [|done].
  split; [done|]. by exists ha, hb, da, db.
Qed.

Lemma clear_frame s a b :
  separate s a b ->
  separate (Obj.clear a s).2 a b /\
  Obj.contents (Obj.clear a s).2 b = Obj.contents s b.
Proof.
  intros (Hne & ha & hb & da & db & Ha & Hb & Hd & Hda & Hdb).
  unfold Obj.clear, bind, Obj.new_array, Obj.set_data. simpl.
  rewrite Ha. simpl.
  assert (Hfresh : fresh (dom (Obj.arrays s)) <> Obj.data hb).
  { intros Heq. pose proof (fresh_array s) as Hf. rewrite Heq in Hf.
    congruence. }
  split.
  - split; [done|].
    exists {| Obj.data := fresh (dom (Obj.arrays s));
              Obj.compare := Obj.compare ha |}, hb, [], db. simpl.
    split; [apply lookup_insert_eq|].
    split; [by rewrite lookup_insert_ne|].
    split; [done|]. split; [apply lookup_insert_eq|].
    by rewrite lookup_insert_ne.
  - unfold Obj.contents. simpl.
    rewrite lookup_insert_ne by done. rewrite Hb. simpl.
    by rewrite lookup_insert_ne.
Qed.

(** A call that changes one heap leaves a separate heap as it was, whether
    the call completes or throws. *)
Lemma mutate_frame s a b m :
  separate s a b ->
  separate (Obj.mutate a m s).2 a b /\
  Obj.contents (Obj.mutate a m s).2 b = Obj.contents s b.
Proof.
  intros Hsep. destruct m as [values| |]; simpl.
  - rewrite bind_ret_tt_state. by apply method_frame.
  - rewrite bind_ret_tt_state. by apply method_frame.
  - by apply clear_frame.
Qed.

Lemma mutates_frame ms : forall s a b,
  separate s a b ->
  Obj.contents (Obj.mutates a ms s).2 b = Obj.contents s b.
Proof.
  induction ms as [|m ms IH]; intros s a b Hsep; [done|]. simpl.
  destruct (mutate_frame s a b m Hsep) as [Hsep1 Hc1].
  unfold bind. destruct (Obj.mutate a m s) as [[[]|e|] s1]; simpl in *;
    [|done|done].
  by rewrite (IH s1 a b Hsep1).
Qed.

Lemma bind_Normal {S A B} (m : M S E A) (f : A -> M S E B) st a st' :
  m st = (Normal a, st') -> bind m f st = f a st'.
Proof. unfold bind. by intros ->. Qed.

Lemma elements_run s a d :
  Obj.arrays s !! a = Some d -> Obj.elements a s = (Normal d, s).
Proof. unfold Obj.elements. by intros ->. Qed.

Lemma set_data_run s this h a :
  Obj.heaps s !! this = Some h ->
  Obj.set_data this a s =
  (Normal tt,
   {| Obj.arrays := Obj.arrays s;
      Obj.heaps :=
        <[this := {| Obj.data := a; Obj.compare := Obj.compare h |}]>
          (Obj.heaps s) |}).
Proof. unfold Obj.set_data. by intros ->. Qed.

Lemma from_heap_run src (options : option (Obj.Options (V := V))) s h d :
  options ≫= Obj.opt_compare = None -> options ≫= Obj.opt_map = None ->
  Obj.heaps s !! src = Some h -> Obj.arrays s !! Obj.data h = Some d ->
  Obj.from less (Obj.Heap src) options s =
  (Normal (fresh (dom (Obj.heaps s))), copied s h d).
Proof.
  intros Hc Hm Hh Hd. unfold Obj.from. rewrite Hc, Hm. simpl.
  assert (Hne : fresh (dom (Obj.arrays s)) <> Obj.data h).
  { intros Heq. pose proof (fresh_array s) as Hf. rewrite Heq in Hf.
    congruence. }
  set (s1 := constructed s (Obj.compare h)).
  assert (Hd1 : Obj.arrays s1 !! Obj.data h = Some d).
  { unfold s1, constructed. simpl. by rewrite lookup_insert_ne. }
  erewrite bind_Normal; cycle 1.
  { erewrite bind_Normal; [|unfold Obj.fields; by rewrite Hh].
    erewrite bind_Normal; [|apply constructor_function]. fold s1.
    erewrite bind_Normal; [|by apply elements_run].
    erewrite bind_Normal; [|reflexivity].
    erewrite bind_Normal; [|apply set_data_run; apply lookup_insert_eq].
    reflexivity. }
  simpl. erewrite bind_Normal; [|reflexivity].
  erewrite bind_Normal; [|reflexivity].
  erewrite bind_Normal; cycle 1.
  { unfold Obj.push. erewrite method_run;
      [|simpl; apply lookup_insert_eq|simpl; apply lookup_insert_eq].
    reflexivity. }
  unfold ret. f_equal. unfold Obj.with_array, copied. simpl. fold s1.
  f_equal; by rewrite ?insert_insert_eq.
Qed.

Lemma copied_separate src s h d :
  Obj.heaps s !! src = Some h -> Obj.arrays s !! Obj.data h = Some d ->
  separate (copied s h d) (fresh (dom (Obj.heaps s))) src /\
  Obj.contents (copied s h d) src = Some d /\
  Obj.contents (copied s h d) (fresh (dom (Obj.heaps s))) = Some d.
Proof.
  intros Hh Hd.
  assert (Hl : fresh (dom (Obj.heaps s)) <> src).
  { intros Heq. pose proof (fresh_heap s) as Hf. rewrite Heq in Hf.
    congruence. }
  assert (Ha1 : fresh (dom (Obj.arrays s)) <> Obj.data h).
  { intros Heq. pose proof (fresh_array s) as Hf. rewrite Heq in Hf.
    congruence. }
  set (s1 := constructed s (Obj.compare h)).
  assert (Hd1 : Obj.arrays s1 !! Obj.data h = Some d).
  { unfold s1, constructed. simpl. by rewrite lookup_insert_ne. }
  assert (Ha2 : fresh (dom (Obj.arrays s1)) <> Obj.data h).
  { intros Heq. pose proof (fresh_array s1) as Hf. rewrite Heq in Hf.
    congruence. }
  assert (Hsrc : Obj.heaps (copied s h d) !! src = Some h).
  { unfold copied, constructed. simpl. by rewrite !lookup_insert_ne. }
  assert (Hcopy : Obj.heaps (copied s h d) !! fresh (dom (Obj.heaps s)) =
            Some {| Obj.data := fresh (dom (Obj.arrays s1));
                    Obj.compare := Obj.compare h |}).
  { unfold copied. simpl. apply lookup_insert_eq. }
  assert (Hda : Obj.arrays (copied s h d) !! Obj.data h = Some d).
  { unfold copied. simpl. fold s1. by rewrite lookup_insert_ne. }
  assert (Hdc : Obj.arrays (copied s h d) !! fresh (dom (Obj.arrays s1)) =
            Some d).
  { unfold copied. simpl. fold s1. apply lookup_insert_eq. }
  split; [|split].
  - split; [done|]. eexists _, h, d, d.
    split; [exact Hcopy|]. split; [exact Hsrc|]. simpl.
    split; [done|]. by split.
  - apply contents_Some. by exists h.
  - apply contents_Some. eexists. split; [exact Hcopy|]. exact Hdc.
Qed.

End Copies.

(** C8: [from] applied to a heap, with neither a [compare] nor a [map]
    option, returns a new heap that holds the same elements in an array of
    its own, and leaves the elements (and so the length) of the source heap
    as they were; afterwards no sequence of [push], [pop] and [clear] calls
    on the copy changes the elements of the source, and none on the source
    changes the elements of the copy. *)
Theorem from_heap_independent_copy {T E V} (less : T -> T -> bool)
    (src : Obj.loc) (options : option (Obj.Options (V := V)))
    (s : Obj.store (T := T) (E := E)) (d : list T) :
  options ≫= Obj.opt_compare = None -> options ≫= Obj.opt_map = None ->
  Obj.contents s src = Some d ->
  exists copy s',
    Obj.from less (Obj.Heap src) options s = (Normal copy, s') /\
    copy <> src /\
    Obj.contents s' src = Some d /\
    Obj.contents s' copy = Some d /\
    (forall ms, Obj.contents (Obj.mutates copy ms s').2 src = Some d) /\
    (forall ms, Obj.contents (Obj.mutates src ms s').2 copy = Some d).
Proof.
  intros Hc Hm Hsrc. apply contents_Some in Hsrc as (h & Hh & Hd).
  exists (fresh (dom (Obj.heaps s))), (copied s h d).
  destruct (copied_separate src s h d Hh Hd) as (Hsep & Hcs & Hcc).
  split; [by apply from_heap_run|].
  split; [by destruct Hsep|]. split; [done|]. split; [done|]. split.
  - intros ms. by rewrite (mutates_frame ms _ _ _ Hsep).
  - intros ms. by rewrite (mutates_frame ms _ _ _ (separate_sym _ _ _ Hsep)).
Qed.

Lemma from_heap_independent_copy_witness :
  exists copy s',
    Obj.from (V := unit) Z.ltb (Obj.Heap 1%positive) None store_with_heap =
      (Normal copy, s') /\
    copy <> 1%positive /\
    Obj.contents s' 1%positive = Some [5; 4; 3; 2; 1] /\
    Obj.contents s' copy = Some [5; 4; 3; 2; 1] /\
    (forall ms, Obj.contents (Obj.mutates copy ms s').2 1%positive =
                Some [5; 4; 3; 2; 1]) /\
    (forall ms, Obj.contents (Obj.mutates 1%positive ms s').2 copy =
                Some [5; 4; 3; 2; 1]).
Proof.
  apply (from_heap_independent_copy Z.ltb 1%positive None store_with_heap
           [5; 4; 3; 2; 1]); reflexivity.
Defined.

(** The test "drain copy": the copy drains to [[5, 4, 3, 2, 1]] and the
    source still has its 5 elements. *)
Example drain_copy :
  ((do copy <- Obj.from (V := unit) Z.ltb (Obj.Heap 1%positive) None;
    do vs <- Obj.drain copy;
    do n <- Obj.length 1%positive;
    ret (vs, n)) store_with_heap).1 = Normal ([5; 4; 3; 2; 1], 5).
Proof. reflexivity. Qed.

(** ** The tests of the repository *)

(** "BinaryHeap works with default descend comparator": the lengths that
    the single pushes return, and the drain. *)
Example test_default_descend :
  (do a <- push descending [-10];
   do b <- push descending [9];
   do c <- push descending [-1; 100; 9; 1; 0; 9; -100; 10; -9];
   do vs <- drain descending;
   do e <- isEmpty;
   ret (a, b, c, vs, e)) [] =
  (Normal (1, 2, 11, [100; 10; 9; 9; 9; 1; 0; -1; -9; -10; -100], true), []).
Proof. reflexivity. Qed.

(** "BinaryHeap handles edge case 1" *)
Example test_edge_case_1 :
  (do _ <- push ascending [4; 2; 8; 1; 10; 7; 3; 6; 5];
   do first <- pop ascending;
   do _ <- push ascending [9];
   do vs <- asyncIterator ascending;
   ret (first, vs)) [] =
  (Normal (Some 1, [2; 3; 4; 5; 6; 7; 8; 9; 10]), []).
Proof. reflexivity. Qed.

(** "BinaryHeap handles edge case 3" *)
Example test_edge_case_3 :
  (do _ <- push by_x [(0, 1); (1, 2); (1, 3); (2, 4); (2, 5); (2, 6); (2, 7)];
   asyncIterator by_x) [] =
  (Normal [(0, 1); (1, 2); (1, 3); (2, 5); (2, 4); (2, 6); (2, 7)], []).
Proof. reflexivity. Qed.

(** "BinaryHeap.from() handles iterable", with [map] and [thisArg]. *)
Example test_from_thisArg :
  ((do h <- Obj.from Z.ltb
              (Obj.Items [-10; 9; -1; 100; 9; 1; 0; 9; -100; 10; -9])
              (Some triple_options);
    Obj.drain h) Obj.empty_store).1 =
  Normal [300; 30; 27; 27; 27; 3; 0; -3; -27; -30; -300].
Proof. reflexivity. Qed.

(** "BinaryHeap.clear()" *)
Example test_clear :
  ((do _ <- Obj.clear 1%positive; Obj.toArray 1%positive)
     store_with_heap).1 = Normal [].
Proof. reflexivity. Qed.

(** * Further properties of the class *)

(** ** [swap] and [getParentIndex] *)

Lemma get_ext {T} (a b : list T) :
  len a = len b -> (forall i, 0 <= i < len a -> get a i = get b i) -> a = b.
Proof.
  unfold len, get. intros Hl H. apply list_eq. intros n.
  destruct (decide (n < length a)%nat) as [Hn|Hn].
  - specialize (H (Z.of_nat n)).
    destruct (Z.leb_spec 0 (Z.of_nat n)); [|lia].
    rewrite Nat2Z.id in H. apply H. lia.
  - rewrite !lookup_ge_None_2; [done| |]; lia.
Qed.

(** X1: [swap] on two existing slots exchanges what they hold, leaves every
    other slot and the length as they were, and a second [swap] of the same
    slots restores the array. *)
Theorem swap_exchanges_slots {T} (d : list T) (a b : Z) :
  0 <= a < len d -> 0 <= b < len d ->
  exists d',
    swap d a b = Some d' /\ len d' = len d /\
    get d' a = get d b /\ get d' b = get d a /\
    (forall i, i <> a -> i <> b -> get d' i = get d i) /\
    d' ≡ₚ d /\ swap d' a b = Some d.
Proof.
  intros Ha Hb. destruct (swap_Some d a b Ha Hb) as (x & y & _ & _ & Hswap).
  exists (set (set d a y) b x). split; [exact Hswap|].
  pose proof (swap_len _ _ _ _ Hswap) as Hlen.
  split; [done|]. split; [apply (swap_get_a _ _ _ _ Hswap)|].
  split; [apply (swap_get_b _ _ _ _ Hswap)|].
  split; [intros i Hia Hib; by apply (swap_get_other _ _ _ _ _ Hswap)|].
  split; [apply (swap_Permutation _ _ _ _ Hswap)|].
  destruct (swap_Some (set (set d a y) b x) a b)
    as (x' & y' & _ & _ & Hback); [lia|lia|].
  rewrite Hback. f_equal. apply get_ext.
  - by rewrite !len_set.
  - intros i _. rewrite (swap_get _ _ _ _ i Hback).
    destruct (Z.eqb_spec i b) as [->|Hib].
    + apply (swap_get_a _ _ _ _ Hswap).
    + destruct (Z.eqb_spec i a) as [->|Hia].
      * apply (swap_get_b _ _ _ _ Hswap).
      * by apply (swap_get_other _ _ _ _ _ Hswap).
Qed.

Lemma swap_exchanges_slots_witness :
  exists d',
    swap [10; 20; 30] 0 2 = Some d' /\ len d' = len [10; 20; 30] /\
    get d' 0 = get [10; 20; 30] 2 /\ get d' 2 = get [10; 20; 30] 0 /\
    (forall i, i <> 0 -> i <> 2 -> get d' i = get [10; 20; 30] i) /\
    d' ≡ₚ [10; 20; 30] /\ swap d' 0 2 = Some [10; 20; 30].
Proof.
  apply (swap_exchanges_slots [10; 20; 30] 0 2); unfold len; simpl; lia.
Defined.

(** X2: [getParentIndex] undoes the child indices that [pop] computes: the
    parent of [2 * (k + 1) - 1] and of [2 * (k + 1)] is [k]; every index is
    one of the two children of its parent; and the parent of a non-root
    index is a smaller index of the array. *)
Theorem getParentIndex_inverts_children :
  (forall k, getParentIndex (2 * (k + 1) - 1) = k /\
             getParentIndex (2 * (k + 1)) = k) /\
  (forall i, i = 2 * (getParentIndex i + 1) - 1 \/
             i = 2 * (getParentIndex i + 1)) /\
  (forall i, 0 < i -> 0 <= getParentIndex i < i).
Proof.
  split; [|split].
  - intros k. split; apply getParentIndex_children; lia.
  - intros i. by apply getParentIndex_children.
  - apply getParentIndex_bounds.
Qed.

Lemma getParentIndex_inverts_children_witness :
  getParentIndex (2 * (3 + 1) - 1) = 3 /\ getParentIndex (2 * (3 + 1)) = 3 /\
  0 <= getParentIndex 7 < 7.
Proof.
  destruct getParentIndex_inverts_children as (Hk & _ & Hlt).
  destruct (Hk 3) as [Hl Hr]. split; [exact Hl|]. split; [exact Hr|].
  apply Hlt. lia.
Defined.

(** ** [push], [peek] and small heaps *)

(** X3: [push] neither loses nor invents elements.  When it completes, the
    heap holds its former elements and all the values; when the comparator
    fails, it holds its former elements and the first [k] values for some
    [k >= 1]: the value being sifted is already appended, the values after
    it are not inserted. *)
Theorem push_keeps_elements {T E} (compare : T -> T -> promise E Z)
    (values d : list T) :
  match push compare values d with
  | (Normal _, d') => d' ≡ₚ d ++ values
  | (Throw e, d') =>
      rejects compare e /\
      exists k, (0 < k <= length values)%nat /\ d' ≡ₚ d ++ take k values
  | (Wrong, _) => False
  end.
Proof.
  pose proof (push_wp compare values d) as H. unfold wp in H.
  destruct (push compare values d) as [[r|e|] d']; [|done|done].
  by destruct H as (_ & H & _).
Qed.

(** X4: after a [push] that completes on a heap with the heap property and
    a consistent ordering, [peek()] returns one of the elements, and no
    element, old or new, is strictly nearer the root; [peek()] leaves the
    array as it is. *)
Theorem peek_after_push {T E} (compare : T -> T -> promise E Z)
    (values d : list T) :
  consistent compare -> heap_property compare d -> d ++ values <> [] ->
  match push compare values d with
  | (Normal _, d') =>
      exists x, peek (E := E) d' = (Normal (Some x), d') /\
                x ∈ d ++ values /\
                forall y, y ∈ d ++ values -> not_negative compare y x
  | (Throw e, _) => rejects compare e
  | (Wrong, _) => False
  end.
Proof.
  intros Hcons Hd Hne. pose proof (push_wp compare values d) as H.
  unfold wp in H.
  destruct (push compare values d) as [[r|e|] d']; [|tauto|done].
  destruct H as (_ & Hperm & Hheap).
  destruct d' as [|x d'].
  { apply Permutation_nil_l in Hperm. by rewrite <- Hperm in Hne. }
  exists x. split; [done|]. split.
  - rewrite <- Hperm. apply elem_of_cons. by left.
  - intros y Hy. apply (root_max compare (x :: d') x Hcons); [auto|done|].
    by rewrite Hperm.
Qed.

Lemma peek_after_push_witness :
  match push descending [4; 9; 1] [5; 2] with
  | (Normal _, d') =>
      exists x, peek (E := unit) d' = (Normal (Some x), d') /\
                x ∈ [5; 2] ++ [4; 9; 1] /\
                forall y, y ∈ [5; 2] ++ [4; 9; 1] -> not_negative descending y x
  | (Throw e, _) => rejects descending e
  | (Wrong, _) => False
  end.
Proof.
  apply (peek_after_push descending [4; 9; 1] [5; 2]).
  - exact descending_consistent.
  - apply heap_propertyb_spec. reflexivity.
  - discriminate.
Defined.

(** X5: on a heap of at most two elements [pop()] makes no comparison, and
    neither does [push] of one value onto an empty heap: whatever the
    comparator does, [pop()] returns the first element ([undefined] for an
    empty heap) and leaves the rest, and the [push] returns 1. *)
Theorem small_heap_no_comparison {T E} (compare : T -> T -> promise E Z)
    (d : list T) (v : T) :
  len d <= 2 ->
  pop compare d = (Normal (head d), tail d) /\
  push compare [v] [] = (Normal 1, [v]).
Proof.
  intros Hlen. split; [|reflexivity].
  destruct d as [|x [|y [|z d]]]; try reflexivity.
  unfold len in Hlen. simpl in Hlen. lia.
Qed.

Lemma small_heap_no_comparison_witness :
  pop always_rejects [7; 8] = (Normal (Some 7), [8]) /\
  push always_rejects [7] [] = (Normal 1, [7]).
Proof.
  apply (small_heap_no_comparison always_rejects [7; 8] 7).
  unfold len. simpl. lia.
Defined.

(** ** Sorting with a heap *)

Lemma push_then_drain {T E} (compare : T -> T -> promise E Z)
    (items : list T) :
  (forall e, ~ rejects compare e) ->
  exists vs,
    (do _ <- push compare items; drain compare) [] = (Normal vs, []) /\
    vs ≡ₚ items /\
    (consistent compare -> best_first compare vs).
Proof.
  intros Hnever.
  pose proof (push_wp compare items []) as Hpush. unfold wp in Hpush.
  unfold bind at 1.
  destruct (push compare items []) as [[n|e|] d1];
    [|by destruct Hpush as [?%Hnever _]|done].
  destruct Hpush as (_ & Hperm1 & Hheap). simpl in Hperm1.
  pose proof (drain_wp compare d1) as Hdrain. unfold wp in Hdrain.
  destruct (drain compare d1) as [[vs|e|] d2];
    [|by apply Hnever in Hdrain|done].
  destruct Hdrain as (-> & Hperm2 & Hbf).
  exists vs. split; [done|]. split; [by rewrite Hperm2|].
  intros Hcons. apply Hbf; [done|]. apply Hheap; [done|].
  apply heap_property_nil.
Qed.

(** X6: heap sort.  With a comparison function that is a consistent
    ordering and never fails, pushing any values into an empty heap and
    draining it completes, yields exactly the values that were pushed, best
    first, and leaves the heap empty. *)
Theorem push_drain_sorts {T E} (compare : T -> T -> promise E Z)
    (items : list T) :
  consistent compare ->
  (forall a b, exists z, compare a b = Fulfilled z) ->
  exists vs,
    (do _ <- push compare items; drain compare) [] = (Normal vs, []) /\
    vs ≡ₚ items /\ best_first compare vs.
Proof.
  intros Hcons Htotal.
  destruct (push_then_drain compare items) as (vs & Hrun & Hperm & Hbf).
  - intros e (a & b & Hab). destruct (Htotal a b) as [z Hz]. congruence.
  - exists vs. auto.
Qed.

Lemma push_drain_sorts_witness :
  exists vs,
    (do _ <- push ascending [3; 1; 2]; drain ascending) [] = (Normal vs, []) /\
    vs ≡ₚ [3; 1; 2] /\ best_first ascending vs.
Proof.
  apply (push_drain_sorts ascending [3; 1; 2]).
  - exact ascending_consistent.
  - intros a b. by eexists.
Defined.

(** ** Every path of [from] *)

Section FromPaths.
Context {T E V : Type}.
Variable less : T -> T -> bool.
Implicit Types (s : Obj.store (T := T) (E := E)) (d : list T).
Implicit Types (options : option (Obj.Options (T := T) (E := E) (V := V))).

(** The end of [from], from the conversion of the values on. *)
Lemma from_tail map thisArg (unmappedValues : Obj.sequence) this s :
  (do values <-
     match map with
     | Some mapFn =>
         do array <-
           Obj.Array_from (V := V) mapFn thisArg
             (Obj.sequence_items unmappedValues) 0;
         ret (Obj.Iterable array)
     | None => ret unmappedValues
     end;
   do arguments <- Obj.spread values;
   do _ <- Obj.push this arguments;
   ret this) s =
  match map, unmappedValues with
  | None, Obj.Indexed _ => (Throw (TypeError Obj.not_iterable), s)
  | _, _ =>
      rebuild map thisArg (Obj.sequence_items unmappedValues) this s
  end.
Proof.
  unfold rebuild.
  destruct map as [mapFn|], unmappedValues as [items|items]; simpl;
    try reflexivity;
    unfold bind at 1 2 5;
    by destruct (Obj.Array_from mapFn thisArg items 0 s) as [[array|e|] s1].
Qed.

Lemma from_sequence_constructor options s :
  match options ≫= Obj.opt_compare with
  | Some f => Obj.constructor less (Obj.Function f)
  | None => Obj.constructor less Obj.Undefined
  end s =
  (Normal (fresh (dom (Obj.heaps s))),
   constructed s
     (default (Obj.default_compare less) (options ≫= Obj.opt_compare))).
Proof.
  destruct (options ≫= Obj.opt_compare) as [f|]; simpl;
    [apply constructor_function|apply constructor_undefined].
Qed.

Lemma from_items_unfold items options s :
  Obj.from less (Obj.Items items) options s =
  rebuild (options ≫= Obj.opt_map) (options ≫= Obj.opt_thisArg) items
    (fresh (dom (Obj.heaps s)))
    (constructed s
       (default (Obj.default_compare less) (options ≫= Obj.opt_compare))).
Proof.
  unfold Obj.from.
  erewrite bind_Normal; cycle 1.
  { erewrite bind_Normal; [|apply from_sequence_constructor]. reflexivity. }
  cbv zeta. simpl fst. simpl snd. rewrite from_tail.
  by destruct (options ≫= Obj.opt_map).
Qed.

(** A non-iterable array-like is converted by [Array.from] when there is a
    [map] option, and ends in the spread otherwise, after the new heap has
    been constructed. *)
Lemma from_array_like_unfold items options s :
  Obj.from less (Obj.ArrayLike items) options s =
  match options ≫= Obj.opt_map with
  | Some _ => Obj.from less (Obj.Items items) options s
  | None =>
      (Throw (TypeError Obj.not_iterable),
       constructed s
         (default (Obj.default_compare less) (options ≫= Obj.opt_compare)))
  end.
Proof.
  rewrite from_items_unfold. unfold Obj.from.
  erewrite bind_Normal; cycle 1.
  { erewrite bind_Normal; [|apply from_sequence_constructor]. reflexivity. }
  cbv zeta. simpl fst. simpl snd. rewrite from_tail.
  by destruct (options ≫= Obj.opt_map).
Qed.

Lemma from_heap_override_unfold src options s h d :
  Obj.heaps s !! src = Some h -> Obj.arrays s !! Obj.data h = Some d ->
  is_Some (options ≫= Obj.opt_compare) \/ is_Some (options ≫= Obj.opt_map) ->
  Obj.from less (Obj.Heap src) options s =
  rebuild (options ≫= Obj.opt_map) (options ≫= Obj.opt_thisArg) d
    (fresh (dom (Obj.heaps s)))
    (constructed s (default (Obj.compare h) (options ≫= Obj.opt_compare))).
Proof.
  intros Hh Hd Hover. unfold Obj.from.
  assert (Hb : bool_decide (is_Some (options ≫= Obj.opt_compare))
               || bool_decide (is_Some (options ≫= Obj.opt_map)) = true).
  { destruct Hover as [H|H]; rewrite (bool_decide_eq_true_2 _ H);
      [done|by rewrite orb_true_r]. }
  rewrite Hb.
  assert (Hne : fresh (dom (Obj.arrays s)) <> Obj.data h).
  { intros Heq. pose proof (fresh_array s) as Hf. rewrite Heq in Hf.
    congruence. }
  erewrite bind_Normal; cycle 1.
  { erewrite bind_Normal; [|unfold Obj.fields; by rewrite Hh].
    erewrite bind_Normal; [|apply constructor_function].
    erewrite bind_Normal; [reflexivity|].
    apply elements_run. unfold constructed. simpl.
    by rewrite lookup_insert_ne. }
  cbv zeta. simpl fst. simpl snd. rewrite from_tail.
  by destruct (options ≫= Obj.opt_map).
Qed.

(** The transform and the pushes into the new, empty heap [this]. *)
Lemma rebuild_wp map thisArg items this s h :
  Obj.heaps s !! this = Some h -> Obj.arrays s !! Obj.data h = Some [] ->
  wp (rebuild (V := V) map thisArg items this) s
    (fun r s' =>
       r = this /\
       exists values dd,
         transformed map thisArg items values /\
         s' = Obj.with_array s (Obj.data h) dd /\ dd ≡ₚ values /\
         (consistent (Obj.compare h) -> heap_property (Obj.compare h) dd))
    (fun e s' =>
       (s' = s \/ exists dd, s' = Obj.with_array s (Obj.data h) dd) /\
       ((exists mapFn (i : nat) x,
           map = Some mapFn /\ items !! i = Some x /\
           mapFn thisArg x (Z.of_nat i) = Raise e) \/
        rejects (Obj.compare h) e)).
Proof.
  intros Hh Hd. unfold rebuild. apply wp_bind.
  assert (Hvalues :
    wp (match map with
        | Some mapFn => Obj.Array_from mapFn thisArg items 0
        | None => ret items
        end) s
      (fun values s' => s' = s /\ transformed map thisArg items values)
      (fun e s' => s' = s /\
         exists mapFn (i : nat) x,
           map = Some mapFn /\ items !! i = Some x /\
           mapFn thisArg x (Z.of_nat i) = Raise e)).
  { destruct map as [mapFn|]; [|by apply wp_ret].
    eapply wp_mono; [apply Array_from_spec| |]; cbv beta.
    - intros values s' (-> & Hlen & Hmap). done.
    - intros e s' (-> & i & x & Hx & He). split; [done|].
      by exists mapFn, i, x. }
  eapply wp_mono; [exact Hvalues| |]; cbv beta.
  - intros values s' [-> Htr]. apply wp_bind. unfold Obj.push.
    unfold wp at 1. rewrite (method_run _ _ _ _ _ Hh Hd).
    pose proof (push_wp (Obj.compare h) values []) as Hpush.
    unfold wp in Hpush.
    destruct (push (Obj.compare h) values []) as [[n|e|] dd]; simpl;
      [| |done].
    + destruct Hpush as (_ & Hperm & Hheap). simpl in Hperm.
      apply wp_ret. split; [done|]. exists values, dd.
      split; [done|]. split; [done|]. split; [done|].
      intros Hcons. apply Hheap; [done|]. apply heap_property_nil.
    + destruct Hpush as [Hrej _]. split; [right; by eexists|by right].
  - intros e s' [-> Hraise]. split; [by left|by left].
Qed.

(** The stores that [from] can leave. *)
Lemma from_store collection options s :
  owns_arrays s ->
  (Obj.from less collection options s).2 = s \/
  (exists f, (Obj.from less collection options s).2 = constructed s f) \/
  (exists f dd,
     (Obj.from less collection options s).2 =
     Obj.with_array (constructed s f) (fresh (dom (Obj.arrays s))) dd) \/
  (exists h d,
     Obj.arrays s !! Obj.data h = Some d /\
     (Obj.from less collection options s).2 = copied s h d).
Proof.
  intros Howns.
  assert (Hrebuild : forall f items,
    let r := rebuild (options ≫= Obj.opt_map) (options ≫= Obj.opt_thisArg)
               items (fresh (dom (Obj.heaps s))) (constructed s f) in
    r.2 = constructed s f \/
    exists dd, r.2 = Obj.with_array (constructed s f)
                       (fresh (dom (Obj.arrays s))) dd).
  { intros f items r.
    pose proof (rebuild_wp (options ≫= Obj.opt_map)
                  (options ≫= Obj.opt_thisArg) items _ _ _
                  (constructed_heap s f) (constructed_array s f)) as H.
    unfold wp in H. fold r in H. simpl in H.
    destruct r as [[l|e|] s']; simpl; [|tauto|done].
    destruct H as (_ & values & dd & _ & -> & _). right. by exists dd. }
  destruct collection as [items|src|items]; cycle 2.
  { rewrite from_array_like_unfold.
    destruct (options ≫= Obj.opt_map) as [mapFn|] eqn:Hmap;
      [|right; left; by eexists].
    rewrite from_items_unfold, Hmap.
    destruct (Hrebuild (default (Obj.default_compare less)
                          (options ≫= Obj.opt_compare)) items) as [H|H].
    - right. left. by eexists.
    - right. right. left. by eexists. }
  - rewrite from_items_unfold.
    destruct (Hrebuild (default (Obj.default_compare less)
                          (options ≫= Obj.opt_compare)) items) as [H|H].
    + right. left. by eexists.
    + right. right. left. by eexists.
  - destruct (Obj.heaps s !! src) as [h|] eqn:Hh; cycle 1.
    { left. unfold Obj.from, bind, Obj.fields. by rewrite Hh. }
    destruct (proj1 Howns src h Hh) as [d Hd].
    destruct (decide (is_Some (options ≫= Obj.opt_compare) \/
                      is_Some (options ≫= Obj.opt_map))) as [Hover|Hcopy].
    + rewrite (from_heap_override_unfold _ _ _ _ _ Hh Hd Hover).
      destruct (Hrebuild (default (Obj.compare h)
                            (options ≫= Obj.opt_compare)) d) as [H|H].
      * right. left. by eexists.
      * right. right. left. by eexists.
    + right. right. right. exists h, d. split; [done|].
      rewrite (from_heap_run (V := V) less src options s h d); [done| | |done|done].
      * destruct (options ≫= Obj.opt_compare); [|done].
        exfalso. apply Hcopy. left. by eexists.
      * destruct (options ≫= Obj.opt_map); [|done].
        exfalso. apply Hcopy. right. by eexists.
Qed.

End FromPaths.

(** ** Ownership of the arrays *)

Section OwnershipLemmas.
Context {T E V : Type}.
Variable less : T -> T -> bool.
Implicit Types (s : Obj.store (T := T) (E := E)) (d : list T).

Lemma owns_empty : owns_arrays (Obj.empty_store (T := T) (E := E)).
Proof. split; intros *; simpl; by rewrite lookup_empty. Qed.

Lemma owns_arrays_only s ar :
  owns_arrays s ->
  (forall a d, Obj.arrays s !! a = Some d -> is_Some (ar !! a)) ->
  owns_arrays {| Obj.arrays := ar; Obj.heaps := Obj.heaps s |}.
Proof.
  intros [Hex Hinj] Hkeep. split; simpl.
  - intros l h Hl. destruct (Hex l h Hl) as [d Hd]. by apply (Hkeep _ d).
  - exact Hinj.
Qed.

Lemma owns_set s ar l a f :
  owns_arrays s ->
  (forall a0 d, Obj.arrays s !! a0 = Some d -> is_Some (ar !! a0)) ->
  Obj.arrays s !! a = None -> is_Some (ar !! a) ->
  owns_arrays
    {| Obj.arrays := ar;
       Obj.heaps := <[l := {| Obj.data := a; Obj.compare := f |}]> (Obj.heaps s) |}.
Proof.
  intros [Hex Hinj] Hkeep Hnew Ha.
  assert (Hold : forall l' h', Obj.heaps s !! l' = Some h' -> Obj.data h' <> a).
  { intros l' h' Hl' Heq. destruct (Hex l' h' Hl') as [d Hd].
    rewrite Heq in Hd. congruence. }
  split; simpl.
  - intros l' h'. destruct (decide (l = l')) as [<-|Hne].
    + rewrite lookup_insert_eq. by intros [= <-].
    + rewrite lookup_insert_ne by done. intros Hl'.
      destruct (Hex l' h' Hl') as [d Hd]. by apply (Hkeep _ d).
  - intros l1 l2 h1 h2.
    destruct (decide (l = l1)) as [<-|Hn1], (decide (l = l2)) as [<-|Hn2];
      rewrite ?lookup_insert_eq, ?lookup_insert_ne by done; try done.
    + intros [= <-] H2 Heq. simpl in Heq. by destruct (Hold _ _ H2).
    + intros H1 [= <-] Heq. simpl in Heq. by destruct (Hold _ _ H1).
    + apply Hinj.
Qed.

Lemma insert_keeps (ar : gmap Obj.loc (list T)) a d a0 d0 :
  ar !! a0 = Some d0 -> is_Some (<[a := d]> ar !! a0).
Proof.
  intros H. destruct (decide (a = a0)) as [->|Hne].
  - rewrite lookup_insert_eq. by eexists.
  - rewrite lookup_insert_ne by done. by eexists.
Qed.

Lemma owns_with_array s a d :
  owns_arrays s -> owns_arrays (Obj.with_array s a d).
Proof.
  intros H. apply owns_arrays_only; [done|].
  intros a0 d0. apply insert_keeps.
Qed.

Lemma owns_with_new_array s : owns_arrays s -> owns_arrays (with_new_array s).
Proof.
  intros H. apply owns_arrays_only; [done|].
  intros a0 d0. apply insert_keeps.
Qed.

Lemma owns_constructed s f : owns_arrays s -> owns_arrays (constructed s f).
Proof.
  intros H. apply owns_set; [done| |apply fresh_array|].
  - intros a0 d0. apply insert_keeps.
  - rewrite lookup_insert_eq. by eexists.
Qed.

Lemma copied_eq s h d :
  copied s h d =
  {| Obj.arrays :=
       <[fresh (dom (Obj.arrays (constructed s (Obj.compare h)))) := d]>
         (<[fresh (dom (Obj.arrays s)) := []]> (Obj.arrays s));
     Obj.heaps :=
       <[fresh (dom (Obj.heaps s)) :=
           {| Obj.data := fresh (dom (Obj.arrays (constructed s (Obj.compare h))));
              Obj.compare := Obj.compare h |}]> (Obj.heaps s) |}.
Proof. unfold copied, constructed. simpl. by rewrite insert_insert_eq. Qed.

Lemma fresh_after_constructed s f :
  Obj.arrays s !! fresh (dom (Obj.arrays (constructed s f))) = None.
Proof.
  pose proof (fresh_array (constructed s f)) as H.
  unfold constructed in *. simpl in *.
  destruct (Obj.arrays s !! _) as [d|] eqn:Hd; [|done].
  destruct (insert_keeps (Obj.arrays s) (fresh (dom (Obj.arrays s))) [] _ _ Hd)
    as [d' Hd'].
  congruence.
Qed.

Lemma owns_copied s h d : owns_arrays s -> owns_arrays (copied s h d).
Proof.
  intros H. rewrite copied_eq.
  apply owns_set; [done| |apply fresh_after_constructed|].
  - intros a0 d0 Hd0.
    destruct (insert_keeps (Obj.arrays s) (fresh (dom (Obj.arrays s))) [] _ _ Hd0)
      as [d1 Hd1].
    by apply (insert_keeps _ _ _ _ d1).
  - rewrite lookup_insert_eq. by eexists.
Qed.

Lemma owns_method {A} this
    (body : (T -> T -> promise E Z) -> M (list T) E A) s :
  owns_arrays s -> owns_arrays (Obj.method this body s).2.
Proof.
  intros H. unfold Obj.method.
  destruct (Obj.heaps s !! this) as [h|]; [|done].
  destruct (Obj.arrays s !! Obj.data h) as [d|]; [|done].
  destruct (body (Obj.compare h) d) as [r d']. simpl.
  by apply (owns_with_array s).
Qed.

Lemma owns_clear this s : owns_arrays s -> owns_arrays (Obj.clear this s).2.
Proof.
  intros H. unfold Obj.clear, bind, Obj.new_array, Obj.set_data. simpl.
  destruct (Obj.heaps s !! this) as [h|]; simpl.
  - apply owns_set; [done| |apply fresh_array|].
    + intros a0 d0. apply insert_keeps.
    + rewrite lookup_insert_eq. by eexists.
  - by apply owns_with_new_array.
Qed.

Lemma constructor_store v s :
  (exists f, (Obj.constructor less v s).2 = constructed s f) \/
  (Obj.constructor less v s).2 = with_new_array s.
Proof. destruct v; try (by right); left; by eexists. Qed.

Lemma owns_constructor v s :
  owns_arrays s -> owns_arrays (Obj.constructor less v s).2.
Proof.
  intros H. destruct (constructor_store v s) as [[f ->]| ->].
  - by apply owns_constructed.
  - by apply owns_with_new_array.
Qed.

Lemma owns_from collection (options : option (Obj.Options (V := V))) s :
  owns_arrays s -> owns_arrays (Obj.from less collection options s).2.
Proof.
  intros H.
  destruct (from_store less collection options s H)
    as [-> | [[f ->] | [(f & dd & ->) | (h & d & _ & ->)]]].
  - done.
  - by apply owns_constructed.
  - by apply owns_with_array, owns_constructed.
  - by apply owns_copied.
Qed.

Lemma owns_mutate this m s :
  owns_arrays s -> owns_arrays (Obj.mutate this m s).2.
Proof.
  intros H. destruct m; simpl.
  - rewrite bind_ret_tt_state. by apply owns_method.
  - rewrite bind_ret_tt_state. by apply owns_method.
  - by apply owns_clear.
Qed.

Lemma owns_run_call (c : call (V := V)) s :
  owns_arrays s -> owns_arrays (run_call less c s).2.
Proof.
  intros H. destruct c; simpl; rewrite ?bind_ret_tt_state.
  - by apply owns_constructor.
  - by apply owns_from.
  - by apply owns_mutate.
  - by apply owns_method.
Qed.

(** Existing heaps keep their elements when arrays and heap objects are
    only added. *)
Lemma contents_kept s s' b d :
  (forall a d0, Obj.arrays s !! a = Some d0 -> Obj.arrays s' !! a = Some d0) ->
  (forall l h, Obj.heaps s !! l = Some h -> Obj.heaps s' !! l = Some h) ->
  Obj.contents s b = Some d -> Obj.contents s' b = Some d.
Proof.
  intros Har Hhs Hc. apply contents_Some in Hc as (h & Hh & Hd).
  apply contents_Some. exists h. split; [by apply Hhs|by apply Har].
Qed.

Lemma insert_fresh_keeps {A} (m : gmap Obj.loc A) k x k0 x0 :
  m !! k = None -> m !! k0 = Some x0 -> <[k := x]> m !! k0 = Some x0.
Proof. intros Hk Hk0. rewrite lookup_insert_ne; [done|congruence]. Qed.

Lemma contents_with_new_array s b d :
  Obj.contents s b = Some d -> Obj.contents (with_new_array s) b = Some d.
Proof.
  apply contents_kept; simpl; [|done].
  intros a d0. apply insert_fresh_keeps, fresh_array.
Qed.

Lemma contents_constructed s f b d :
  Obj.contents s b = Some d -> Obj.contents (constructed s f) b = Some d.
Proof.
  apply contents_kept; simpl.
  - intros a d0. apply insert_fresh_keeps, fresh_array.
  - intros l h. apply insert_fresh_keeps, fresh_heap.
Qed.

Lemma contents_rebuilt s f dd b d :
  Obj.contents s b = Some d ->
  Obj.contents
    (Obj.with_array (constructed s f) (fresh (dom (Obj.arrays s))) dd) b =
  Some d.
Proof.
  apply contents_kept; simpl.
  - intros a d0 Ha. rewrite insert_insert_eq.
    by apply insert_fresh_keeps; [apply fresh_array|].
  - intros l h. apply insert_fresh_keeps, fresh_heap.
Qed.

Lemma contents_copied s h d0 b d :
  Obj.contents s b = Some d -> Obj.contents (copied s h d0) b = Some d.
Proof.
  rewrite copied_eq. apply contents_kept; simpl.
  - intros a d1 Ha.
    apply insert_fresh_keeps.
    + destruct (<[fresh (dom (Obj.arrays s)):=[]]> (Obj.arrays s) !! _) eqn:Hf;
        [|done].
      pose proof (fresh_array (constructed s (Obj.compare h))) as Hn.
      unfold constructed in Hn. simpl in Hn. congruence.
    + by apply insert_fresh_keeps; [apply fresh_array|].
  - intros l h'. apply insert_fresh_keeps, fresh_heap.
Qed.

End OwnershipLemmas.

Lemma owns_store_with_heap : owns_arrays store_with_heap.
Proof.
  unfold store_with_heap, bind. rewrite constructor_undefined.
  apply owns_method, owns_constructed, owns_empty.
Qed.

(** X7: every heap owns its array.  Starting from a store where every heap
    has an array of its own (the empty store is one), no sequence of
    constructions, [from] calls, [push], [pop], [clear] and drains, whether
    they complete or throw, leaves two heaps sharing an array or a heap
    without its array. *)
Theorem heaps_own_their_arrays {T E V} (less : T -> T -> bool)
    (cs : list (call (V := V))) (s : Obj.store (T := T) (E := E)) :
  owns_arrays s -> owns_arrays (run_calls less cs s).
Proof.
  revert s. induction cs as [|c cs IH]; intros s H; simpl; [done|].
  by apply IH, owns_run_call.
Qed.

Lemma heaps_own_their_arrays_witness :
  owns_arrays
    (run_calls (V := unit) Z.ltb
       [New Obj.Undefined; Change 1%positive (Obj.MPush [2; 4; 3]);
        From (Obj.Heap 1%positive) None; New Obj.Object;
        Change 2%positive Obj.MClear; Drain 1%positive]
       (Obj.empty_store (T := Z) (E := unit))).
Proof. apply heaps_own_their_arrays. apply owns_empty. Defined.

(** X8: in a store where every heap has an array of its own, no sequence of
    [push], [pop] and [clear] calls on a heap, completing or throwing,
    changes the elements of any other heap. *)
Theorem mutation_leaves_other_heaps {T E} (a b : Obj.loc)
    (ms : list Obj.mutation) (s : Obj.store (T := T) (E := E)) (d : list T) :
  owns_arrays s -> a <> b -> is_Some (Obj.heaps s !! a) ->
  Obj.contents s b = Some d ->
  Obj.contents (Obj.mutates a ms s).2 b = Some d.
Proof.
  intros [Hex Hinj] Hne [ha Ha] Hb.
  pose proof Hb as Hb'. apply contents_Some in Hb' as (hb & Hhb & Hdb).
  destruct (Hex a ha Ha) as [da Hda].
  rewrite (mutates_frame ms s a b); [done|].
  split; [done|]. exists ha, hb, da, d.
  split; [done|]. split; [done|]. split; [|done].
  intros Heq. apply Hne. by apply (Hinj a b ha hb).
Qed.

Lemma mutation_leaves_other_heaps_witness :
  Obj.contents
    (Obj.mutates 2%positive [Obj.MPush [9; 8]; Obj.MPop; Obj.MClear]
       (Obj.from (V := unit) Z.ltb (Obj.Heap 1%positive) None
          store_with_heap).2).2
    1%positive = Some [5; 4; 3; 2; 1].
Proof.
  apply mutation_leaves_other_heaps; [|done|by eexists|reflexivity].
  apply owns_from, owns_store_with_heap.
Defined.

(** X9: a construction never changes an existing heap, whether it throws or
    not, and neither does [from], whatever the collection and the options
    and whether it completes or throws, in a store where every heap has an
    array of its own: every heap that existed holds the elements it held. *)
Theorem construction_never_mutates {T E V} (less : T -> T -> bool)
    (s : Obj.store (T := T) (E := E)) (b : Obj.loc) (d : list T) :
  Obj.contents s b = Some d ->
  (forall v, Obj.contents (Obj.constructor less v s).2 b = Some d) /\
  (owns_arrays s ->
   forall collection (options : option (Obj.Options (V := V))),
     Obj.contents (Obj.from less collection options s).2 b = Some d).
Proof.
  intros Hb. split.
  - intros v. destruct (constructor_store less v s) as [[f ->]| ->].
    + by apply contents_constructed.
    + by apply contents_with_new_array.
  - intros Howns collection options.
    destruct (from_store less collection options s Howns)
      as [-> | [[f ->] | [(f & dd & ->) | (h & d0 & _ & ->)]]].
    + done.
    + by apply contents_constructed.
    + by apply contents_rebuilt.
    + by apply contents_copied.
Qed.

Lemma construction_never_mutates_witness :
  Obj.contents
    (Obj.constructor Z.ltb Obj.Null store_with_heap).2 1%positive =
    Some [5; 4; 3; 2; 1] /\
  Obj.contents
    (Obj.from (V := unit) Z.ltb (Obj.Heap 1%positive)
       (Some {| Obj.opt_compare := Some always_rejects;
                Obj.opt_map := None; Obj.opt_thisArg := None |})
       store_with_heap).2 1%positive = Some [5; 4; 3; 2; 1].
Proof.
  destruct (construction_never_mutates (V := unit) Z.ltb store_with_heap
              1%positive [5; 4; 3; 2; 1] eq_refl) as [Hnew Hfrom].
  split; [apply Hnew|]. apply Hfrom, owns_store_with_heap.
Defined.

(** X10: [from] on an iterable, on an array-like object that is not
    iterable, or on a heap with a [compare] or a [map] option, builds the
    heap from scratch.  It ends only with a new heap, with an exception of
    the transform, with one of the comparator, or with the [TypeError] of
    the spread: the last happens exactly for an array-like that is not
    iterable when there is no [map] option, and leaves nothing but a new,
    empty heap.  The comparator of the new heap is the [compare] option if
    there is one, else the comparator of the source heap, else the default
    one; the heap holds exactly the (transformed) source elements; and it
    satisfies the heap property whenever its comparator is a consistent
    ordering. *)
Theorem from_rebuilds_heap {T E V} (less : T -> T -> bool)
    (collection : Obj.collection)
    (options : option (Obj.Options (V := V)))
    (s : Obj.store (T := T) (E := E))
    (items : list T) (inherited : T -> T -> promise E Z) :
  match collection with
  | Obj.Items items0 | Obj.ArrayLike items0 =>
      items = items0 /\ inherited = Obj.default_compare less
  | Obj.Heap src =>
      (exists h, Obj.heaps s !! src = Some h /\
                 Obj.arrays s !! Obj.data h = Some items /\
                 inherited = Obj.compare h) /\
      (is_Some (options ≫= Obj.opt_compare) \/
       is_Some (options ≫= Obj.opt_map))
  end ->
  match Obj.from less collection options s with
  | (Normal this, s') =>
      (collection = Obj.ArrayLike items -> is_Some (options ≫= Obj.opt_map)) /\
      Obj.heaps s !! this = None /\
      exists h dd values,
        Obj.heaps s' !! this = Some h /\
        Obj.compare h = default inherited (options ≫= Obj.opt_compare) /\
        Obj.arrays s' !! Obj.data h = Some dd /\
        transformed (options ≫= Obj.opt_map) (options ≫= Obj.opt_thisArg)
          items values /\
        dd ≡ₚ values /\
        (consistent (Obj.compare h) -> heap_property (Obj.compare h) dd)
  | (Throw e, s') =>
      (exists mapFn (i : nat) x,
         options ≫= Obj.opt_map = Some mapFn /\ items !! i = Some x /\
         mapFn (options ≫= Obj.opt_thisArg) x (Z.of_nat i) = Raise e) \/
      rejects (default inherited (options ≫= Obj.opt_compare)) e \/
      (collection = Obj.ArrayLike items /\ options ≫= Obj.opt_map = None /\
       e = TypeError Obj.not_iterable /\
       s' = constructed s (default inherited (options ≫= Obj.opt_compare)))
  | (Wrong, _) => False
  end /\
  (collection = Obj.ArrayLike items -> options ≫= Obj.opt_map = None ->
   Obj.from less collection options s =
   (Throw (TypeError Obj.not_iterable),
    constructed s (default inherited (options ≫= Obj.opt_compare)))).
Proof.
  intros Hsrc.
  set (cmp := default inherited (options ≫= Obj.opt_compare)).
  assert (Hspread :
    collection = Obj.ArrayLike items -> options ≫= Obj.opt_map = None ->
    Obj.from less collection options s =
    (Throw (TypeError Obj.not_iterable), constructed s cmp)).
  { intros -> Hmap. destruct Hsrc as [_ Hin]. unfold cmp. rewrite Hin.
    by rewrite from_array_like_unfold, Hmap. }
  split; [|exact Hspread].
  assert (Hcase :
    (collection = Obj.ArrayLike items /\ options ≫= Obj.opt_map = None) \/
    ~ (collection = Obj.ArrayLike items /\ options ≫= Obj.opt_map = None)).
  { destruct collection as [items0|src|items0];
      [right; by intros [? _]|right; by intros [? _]|].
    destruct Hsrc as [-> _].
    destruct (options ≫= Obj.opt_map); [right; by intros [_ ?]|by left]. }
  destruct Hcase as [[Hc Hm]|Hrebuilt].
  { rewrite (Hspread Hc Hm). right. right. done. }
  assert (Hfrom : Obj.from less collection options s =
    rebuild (options ≫= Obj.opt_map) (options ≫= Obj.opt_thisArg) items
      (fresh (dom (Obj.heaps s))) (constructed s cmp)).
  { destruct collection as [items0|src|items0].
    - destruct Hsrc as [-> ->]. apply from_items_unfold.
    - destruct Hsrc as [(h & Hh & Hd & ->) Hover].
      by apply from_heap_override_unfold.
    - destruct Hsrc as [-> ->]. rewrite from_array_like_unfold.
      destruct (options ≫= Obj.opt_map) as [mapFn|] eqn:Hmap;
        [|by destruct Hrebuilt].
      by rewrite from_items_unfold, Hmap. }
  rewrite Hfrom.
  pose proof (rebuild_wp (options ≫= Obj.opt_map)
                (options ≫= Obj.opt_thisArg) items _ _ _
                (constructed_heap s cmp) (constructed_array s cmp)) as H.
  unfold wp in H. simpl in H.
  destruct (rebuild _ _ _ _ _) as [[this|e|] s']; [| |done].
  - destruct H as (-> & values & dd & Htr & -> & Hperm & Hheap).
    split.
    { intros Hc. destruct (options ≫= Obj.opt_map) as [mapFn|]; [by eexists|].
      by destruct Hrebuilt. }
    split; [apply fresh_heap|].
    exists {| Obj.data := fresh (dom (Obj.arrays s)); Obj.compare := cmp |},
      dd, values.
    split; [exact (constructed_heap s cmp)|]. split; [done|].
    split; [simpl; apply lookup_insert_eq|]. done.
  - destruct H as [_ [H|H]]; [by left|right; by left].
Qed.

Lemma from_rebuilds_heap_witness :
  match
    Obj.from (V := unit) Z.ltb (Obj.Heap 1%positive)
      (Some {| Obj.opt_compare := Some ascending; Obj.opt_map := None;
               Obj.opt_thisArg := None |}) store_with_heap
  with
  | (Normal this, s') =>
      (Obj.Heap 1%positive = Obj.ArrayLike [5; 4; 3; 2; 1] ->
       is_Some (None : option (option unit -> Z -> Z -> result unit Z))) /\
      Obj.heaps store_with_heap !! this = None /\
      exists h dd values,
        Obj.heaps s' !! this = Some h /\
        Obj.compare h = ascending /\
        Obj.arrays s' !! Obj.data h = Some dd /\
        values = [5; 4; 3; 2; 1] /\
        dd ≡ₚ values /\
        (consistent (Obj.compare h) -> heap_property (Obj.compare h) dd)
  | (Throw e, s') =>
      (exists (mapFn : option unit -> Z -> Z -> result unit Z) (i : nat) x,
         None = Some mapFn /\ [5; 4; 3; 2; 1] !! i = Some x /\
         mapFn None x (Z.of_nat i) = Raise e) \/
      rejects ascending e \/
      (Obj.Heap 1%positive = Obj.ArrayLike [5; 4; 3; 2; 1] /\
       (None : option (option unit -> Z -> Z -> result unit Z)) = None /\
       e = TypeError Obj.not_iterable /\
       s' = constructed store_with_heap ascending)
  | (Wrong, _) => False
  end /\
  Obj.from (V := unit) Z.ltb (Obj.ArrayLike [4; 2; 7]) None store_with_heap =
  (Throw (TypeError Obj.not_iterable),
   constructed store_with_heap (Obj.default_compare Z.ltb)).
Proof.
  split.
  - apply (from_rebuilds_heap (V := unit) Z.ltb (Obj.Heap 1%positive)
             (Some {| Obj.opt_compare := Some ascending; Obj.opt_map := None;
                      Obj.opt_thisArg := None |})
             store_with_heap [5; 4; 3; 2; 1] descending).
    split.
    + eexists. split; [reflexivity|]. split; reflexivity.
    + left. by eexists.
  - apply (from_rebuilds_heap (V := unit) Z.ltb (Obj.ArrayLike [4; 2; 7]) None
             store_with_heap [4; 2; 7] (Obj.default_compare Z.ltb));
      [split; reflexivity|reflexivity|reflexivity].
Defined.

(** X11: the copy that [from] makes of a heap, without [compare] and [map],
    has the comparator and the elements of the source in the same order:
    right after the copy, every method answers on the copy what it answers
    on the source. *)
Theorem from_copy_behaves_as_source {T E V} (less : T -> T -> bool)
    (src : Obj.loc) (options : option (Obj.Options (V := V)))
    (s : Obj.store (T := T) (E := E)) (d : list T) :
  options ≫= Obj.opt_compare = None -> options ≫= Obj.opt_map = None ->
  Obj.contents s src = Some d ->
  exists copy s',
    Obj.from less (Obj.Heap src) options s = (Normal copy, s') /\
    forall A (body : (T -> T -> promise E Z) -> M (list T) E A),
      (Obj.method copy body s').1 = (Obj.method src body s').1.
Proof.
  intros Hc Hm Hsrc. apply contents_Some in Hsrc as (h & Hh & Hd).
  exists (fresh (dom (Obj.heaps s))), (copied s h d).
  split; [by apply from_heap_run|].
  intros A body.
  assert (Hcopy : Obj.heaps (copied s h d) !! fresh (dom (Obj.heaps s)) =
            Some {| Obj.data :=
                      fresh (dom (Obj.arrays (constructed s (Obj.compare h))));
                    Obj.compare := Obj.compare h |}).
  { rewrite copied_eq. simpl. apply lookup_insert_eq. }
  assert (Hdc : Obj.arrays (copied s h d) !!
                  fresh (dom (Obj.arrays (constructed s (Obj.compare h)))) =
                Some d).
  { rewrite copied_eq. simpl. apply lookup_insert_eq. }
  assert (Hs : Obj.contents (copied s h d) src = Some d).
  { apply contents_copied, contents_Some. by exists h. }
  apply contents_Some in Hs as (h' & Hh' & Hd').
  assert (h' = h) as ->.
  { rewrite copied_eq in Hh'. simpl in Hh'.
    rewrite lookup_insert_ne in Hh'; [congruence|].
    intros Heq. pose proof (fresh_heap s) as Hf. rewrite Heq in Hf.
    congruence. }
  rewrite (method_run _ _ _ _ _ Hcopy Hdc).
  by rewrite (method_run _ _ _ _ _ Hh' Hd').
Qed.

Lemma from_copy_behaves_as_source_witness :
  exists copy s',
    Obj.from (V := unit) Z.ltb (Obj.Heap 1%positive) None store_with_heap =
      (Normal copy, s') /\
    forall A (body : (Z -> Z -> promise unit Z) -> M (list Z) unit A),
      (Obj.method copy body s').1 = (Obj.method 1%positive body s').1.
Proof.
  apply (from_copy_behaves_as_source Z.ltb 1%positive None store_with_heap
           [5; 4; 3; 2; 1]); reflexivity.
Defined.

(** X12: [clear()] empties the heap and keeps its comparator: whatever the
    heap held, [clear()] followed by [push(...values)] ends as that [push]
    does on a new heap with the same comparator, and leaves the elements
    that it leaves there. *)
Theorem clear_then_push {T E} (this : Obj.loc) (values : list T)
    (s : Obj.store (T := T) (E := E)) (h : Obj.BinaryHeap) :
  Obj.heaps s !! this = Some h ->
  ((do _ <- Obj.clear this; Obj.push this values) s).1 =
    (push (Obj.compare h) values []).1 /\
  Obj.contents ((do _ <- Obj.clear this; Obj.push this values) s).2 this =
    Some (push (Obj.compare h) values []).2 /\
  Obj.contents (Obj.clear this s).2 this = Some [].
Proof.
  intros Hh.
  assert (Hclear : Obj.clear this s =
    (Normal tt,
     {| Obj.arrays := <[fresh (dom (Obj.arrays s)) := []]> (Obj.arrays s);
        Obj.heaps :=
          <[this := {| Obj.data := fresh (dom (Obj.arrays s));
                       Obj.compare := Obj.compare h |}]> (Obj.heaps s) |})).
  { unfold Obj.clear, bind, Obj.new_array, Obj.set_data. simpl.
    by rewrite Hh. }
  unfold bind. rewrite Hclear. unfold Obj.push.
  erewrite method_run;
    [|simpl; apply lookup_insert_eq|simpl; apply lookup_insert_eq].
  simpl. split; [done|]. split.
  - unfold Obj.contents. simpl. rewrite lookup_insert_eq. simpl.
    apply lookup_insert_eq.
  - unfold Obj.contents. simpl. rewrite lookup_insert_eq. simpl.
    apply lookup_insert_eq.
Qed.

Lemma clear_then_push_witness :
  ((do _ <- Obj.clear 1%positive; Obj.push 1%positive [7; 9; 8])
     store_with_heap).1 = Normal 3 /\
  Obj.contents ((do _ <- Obj.clear 1%positive; Obj.push 1%positive [7; 9; 8])
                  store_with_heap).2 1%positive = Some [9; 7; 8] /\
  Obj.contents (Obj.clear 1%positive store_with_heap).2 1%positive = Some [].
Proof.
  apply (clear_then_push 1%positive [7; 9; 8] store_with_heap
           {| Obj.data := 1%positive; Obj.compare := Obj.default_compare Z.ltb |}).
  reflexivity.
Defined.

(** X13: [toArray()], [length], [isEmpty()] and [peek()] change nothing in
    the store, and they agree: [toArray()] returns the elements, [length]
    their number, [isEmpty()] is true exactly when there is no element, and
    [peek()] is the first element of [toArray()], the [undefined] of a
    missing slot when there is none.  (An element can itself be
    [undefined], so [peek()] alone does not tell whether the heap is empty:
    nothing is stated in that direction.)  Two [peek()] in a row return the
    same, and a [pop()] that follows a [peek()] and completes returns what
    the [peek()] returned. *)
Theorem queries_agree {T E} (this : Obj.loc)
    (s : Obj.store (T := T) (E := E)) (d : list T) :
  Obj.contents s this = Some d ->
  Obj.toArray this s = (Normal d, s) /\
  Obj.length this s = (Normal (len d), s) /\
  Obj.isEmpty this s = (Normal (len d =? 0), s) /\
  Obj.peek this s = (Normal (head d), s) /\
  ((len d =? 0) = true <-> d = []) /\
  (d = [] -> Obj.peek this s = (Normal None, s)) /\
  (do a <- Obj.peek this; do b <- Obj.peek this; ret (a, b)) s =
    (Normal (head d, head d), s) /\
  (forall a b s',
     (do a <- Obj.peek this; do b <- Obj.pop this; ret (a, b)) s =
       (Normal (a, b), s') -> a = b /\ a = head d).
Proof.
  intros Hc. apply contents_Some in Hc as (h & Hh & Hd).
  assert (Hpeek : Obj.peek this s = (Normal (head d), s)).
  { unfold Obj.peek. rewrite (method_run _ _ _ _ _ Hh Hd). simpl.
    rewrite (with_array_same _ _ _ Hd). f_equal. f_equal. by destruct d. }
  unfold Obj.toArray, Obj.length, Obj.isEmpty.
  rewrite !(method_run _ _ _ _ _ Hh Hd). simpl.
  rewrite (with_array_same _ _ _ Hd).
  split; [done|]. split; [done|]. split; [done|]. split; [done|].
  split; [|split; [|split]].
  - destruct d as [|x d]; [done|]. unfold len. simpl. by split.
  - by intros ->.
  - unfold bind. by rewrite Hpeek, Hpeek.
  - intros a b s'. unfold bind. rewrite Hpeek. unfold Obj.pop.
    rewrite (method_run _ _ _ _ _ Hh Hd).
    pose proof (pop_wp (Obj.compare h) d) as Hpop. unfold wp in Hpop.
    destruct (pop (Obj.compare h) d) as [[r|e|] d']; simpl; [|done|done].
    intros [= <- <- _]. destruct Hpop as [-> _]. by destruct d.
Qed.

Lemma queries_agree_witness :
  Obj.toArray 1%positive store_with_heap =
    (Normal [5; 4; 3; 2; 1], store_with_heap) /\
  Obj.length 1%positive store_with_heap = (Normal 5, store_with_heap) /\
  Obj.isEmpty 1%positive store_with_heap = (Normal false, store_with_heap) /\
  Obj.peek 1%positive store_with_heap = (Normal (Some 5), store_with_heap) /\
  (do a <- Obj.peek 1%positive; do b <- Obj.peek 1%positive; ret (a, b))
    store_with_heap = (Normal (Some 5, Some 5), store_with_heap).
Proof.
  destruct (queries_agree 1%positive store_with_heap [5; 4; 3; 2; 1] eq_refl)
    as (H1 & H2 & H3 & H4 & _ & _ & H5 & _).
  repeat split; assumption.
Defined.

(** ** The default ordering on integers *)

Lemma default_compare_Z_consistent {E} :
  consistent (Obj.default_compare (E := E) Z.ltb).
Proof.
  split.
  - intros a b z [= <-] Hz y [= <-]. unfold descend in *.
    destruct (Z.ltb_spec a b), (Z.ltb_spec b a); lia.
  - intros a b c Hab Hbc z [= <-].
    specialize (Hab _ eq_refl). specialize (Hbc _ eq_refl).
    unfold descend in *.
    destruct (Z.ltb_spec a b), (Z.ltb_spec b a), (Z.ltb_spec b c),
      (Z.ltb_spec c b), (Z.ltb_spec a c), (Z.ltb_spec c a); lia.
Qed.

Lemma best_first_default_descending {E} (vs : list Z) :
  best_first (Obj.default_compare (E := E) Z.ltb) vs ->
  StronglySorted Z.ge vs.
Proof.
  unfold best_first. induction 1 as [|a vs Hs IH Hall]; constructor; [done|].
  eapply Forall_impl; [exact Hall|]. intros b Hb. simpl in Hb.
  specialize (Hb _ eq_refl). unfold descend in Hb.
  destruct (Z.ltb_spec b a), (Z.ltb_spec a b); lia.
Qed.

(** X14: with the default ordering, [from] without options on any iterable
    of integers (an array, a set, a generator), followed by a drain,
    completes and yields the integers of the iterable, each as often as it
    occurs there, in descending order.  (An array-like object that is not
    iterable is not such an input: without [map], [from] throws on it.) *)
Theorem default_heap_drains_descending {E V} (items : list Z)
    (s : Obj.store (T := Z) (E := E)) :
  exists vs s',
    (do h <- Obj.from (V := V) Z.ltb (Obj.Items items) None; Obj.drain h) s =
      (Normal vs, s') /\
    vs ≡ₚ items /\ StronglySorted Z.ge vs.
Proof.
  set (cmp := Obj.default_compare (E := E) Z.ltb).
  unfold bind. rewrite from_items_unfold. simpl.
  pose proof (rebuild_wp (V := V) None None items _ _ _
                (constructed_heap s cmp) (constructed_array s cmp)) as H.
  unfold wp in H. simpl in H. fold cmp.
  destruct (rebuild None None items _ (constructed s cmp))
    as [[this|e|] s1]; [| |done].
  - destruct H as (-> & values & dd & -> & -> & Hperm & Hheap).
    unfold Obj.drain.
    erewrite method_run;
      [|simpl; apply lookup_insert_eq|simpl; apply lookup_insert_eq].
    simpl.
    pose proof (drain_wp cmp dd) as Hdrain. unfold wp in Hdrain.
    destruct (drain cmp dd) as [[vs|e|] d2]; simpl;
      [|by apply default_compare_never_rejects in Hdrain|done].
    destruct Hdrain as (-> & Hperm2 & Hbf).
    eexists vs, _. split; [done|]. split; [by rewrite Hperm2|].
    apply (best_first_default_descending (E := E)).
    apply Hbf; [apply default_compare_Z_consistent|].
    apply Hheap, default_compare_Z_consistent.
  - destruct H as [_ [(mapFn & _ & _ & [=] & _)|Hrej]].
    by apply default_compare_never_rejects in Hrej.
Qed.

(** ** The number of iterations of the two loops *)

Lemma log2_parent (i : Z) :
  0 < i -> Z.log2 (getParentIndex i + 1) + 1 <= Z.log2 (i + 1).
Proof.
  intros Hi. pose proof (getParentIndex_bounds i Hi) as Hp.
  assert (H2 : 2 * (getParentIndex i + 1) <= i + 1).
  { pose proof (proj1 (getParentIndex_children i (getParentIndex i)) eq_refl).
    lia. }
  apply Z.log2_le_mono in H2. rewrite Z.log2_double in H2 by lia. lia.
Qed.

Lemma log2_child (k g : Z) :
  0 <= k -> getParentIndex g = k -> Z.log2 (k + 1) + 1 <= Z.log2 (g + 1).
Proof.
  intros Hk Hg. apply getParentIndex_children in Hg.
  assert (H2 : 2 * (k + 1) <= g + 1) by lia.
  apply Z.log2_le_mono in H2. rewrite Z.log2_double in H2 by lia. lia.
Qed.

Section Iterations.
Context {T E : Type}.
Variable compare : T -> T -> promise E Z.

Lemma push_while_log fuel : forall index d,
  0 <= index < len d -> Z.log2 (index + 1) <= Z.of_nat fuel ->
  wp (push_while compare fuel index (getParentIndex index)) d
    (fun _ _ => True) (fun _ _ => True).
Proof.
  induction fuel as [|fuel IH]; intros index d Hi Hfuel;
    rewrite push_while_unfold;
    (destruct (Z.eqb_spec index 0) as [->|Hne]; simpl; [by apply wp_ret|]).
  { pose proof (Z.log2_pos (index + 1)). lia. }
  pose proof (getParentIndex_bounds index ltac:(lia)) as Hpar.
  pose proof (log2_parent index ltac:(lia)) as Hlog.
  destruct (get_lt_Some d index) as [x Hx]; [lia|].
  destruct (get_lt_Some d (getParentIndex index)) as [p Hp]; [lia|].
  apply wp_bind. eapply wp_read; [exact Hx|].
  apply wp_bind. eapply wp_read; [exact Hp|].
  apply wp_bind. apply wp_await. destruct (compare x p) as [c|e]; [|done].
  destruct (c <? 0); [|by apply wp_ret].
  destruct (swap_Some d (getParentIndex index) index)
    as (x' & y' & _ & _ & Hswap); [lia|lia|].
  apply wp_bind. eapply wp_swap_data; [exact Hswap|].
  pose proof (swap_len _ _ _ _ Hswap) as Hlen.
  apply IH; lia.
Qed.

Lemma pop_while_log fuel : forall size k d,
  0 <= k -> size <= len d ->
  Z.log2 size - Z.log2 (k + 1) <= Z.of_nat fuel ->
  wp (pop_while compare fuel size k (2 * (k + 1)) (2 * (k + 1) - 1)) d
    (fun _ _ => True) (fun _ _ => True).
Proof.
  induction fuel as [|fuel IH]; intros size k d Hk Hsize Hfuel;
    rewrite pop_while_unfold;
    (destruct (Z.ltb_spec (2 * (k + 1) - 1) size) as [Hlt|Hge];
     [|by apply wp_ret]);
    assert (Hlog : Z.log2 (2 * (k + 1)) <= Z.log2 size)
      by (apply Z.log2_le_mono; lia);
    rewrite Z.log2_double in Hlog by lia;
    [lia|].
  apply wp_bind.
  eapply wp_mono; [apply greatestChild_wp; lia| |]; cbv beta; [|done].
  intros g d' (-> & Hg & Hpar & _).
  destruct (get_lt_Some d g) as [gv Hgv]; [lia|].
  destruct (get_lt_Some d k) as [kv Hkv]; [lia|].
  apply wp_bind. eapply wp_read; [exact Hgv|].
  apply wp_bind. eapply wp_read; [exact Hkv|].
  apply wp_bind. apply wp_await. destruct (compare gv kv) as [c|e]; [|done].
  destruct (c <? 0); [|by apply wp_ret].
  assert (k < g) by (apply getParentIndex_children in Hpar; lia).
  destruct (swap_Some d k g) as (x' & y' & _ & _ & Hswap); [lia|lia|].
  apply wp_bind. eapply wp_swap_data; [exact Hswap|].
  pose proof (swap_len _ _ _ _ Hswap) as Hlen.
  pose proof (log2_child k g Hk Hpar).
  apply IH; lia.
Qed.

(** A loop that ends within its bound ends in the same way with a larger
    one. *)
Lemma push_while_more fuel : forall index parent d,
  (push_while compare fuel index parent d).1 <> Wrong ->
  push_while compare (S fuel) index parent d =
  push_while compare fuel index parent d.
Proof.
  induction fuel as [|fuel IH]; intros index parent d.
  { rewrite (push_while_unfold compare 1 index parent),
      (push_while_unfold compare 0 index parent).
    by destruct (negb (index =? 0)). }
  rewrite (push_while_unfold compare (S (S fuel)) index parent),
    (push_while_unfold compare (S fuel) index parent).
  destruct (negb (index =? 0)); [|done].
  unfold bind.
  destruct (read index d) as [[x|e|] d1]; try done.
  destruct (read parent d1) as [[p|e|] d2]; try done.
  destruct (await (compare x p) d2) as [[c|e|] d3]; try done.
  destruct (c <? 0); [|done].
  destruct (swap_data parent index d3) as [[[]|e|] d4]; try done.
  apply IH.
Qed.

Lemma pop_while_more fuel : forall size parent right left d,
  (pop_while compare fuel size parent right left d).1 <> Wrong ->
  pop_while compare (S fuel) size parent right left d =
  pop_while compare fuel size parent right left d.
Proof.
  induction fuel as [|fuel IH]; intros size parent right left d.
  { rewrite (pop_while_unfold compare 1 size parent right left),
      (pop_while_unfold compare 0 size parent right left).
    by destruct (left <? size). }
  rewrite (pop_while_unfold compare (S (S fuel)) size parent right left),
    (pop_while_unfold compare (S fuel) size parent right left).
  destruct (left <? size); [|done].
  unfold bind.
  destruct (greatestChild compare size left right d) as [[g|e|] d1]; try done.
  destruct (read g d1) as [[gv|e|] d2]; try done.
  destruct (read parent d2) as [[p|e|] d3]; try done.
  destruct (await (compare gv p) d3) as [[c|e|] d4]; try done.
  destruct (c <? 0); [|done].
  destruct (swap_data parent g d4) as [[[]|e|] d5]; try done.
  apply IH.
Qed.

Lemma push_while_fuel f1 f2 index parent d :
  (push_while compare f1 index parent d).1 <> Wrong ->
  (push_while compare f2 index parent d).1 <> Wrong ->
  push_while compare f1 index parent d = push_while compare f2 index parent d.
Proof.
  assert (Hup : forall n f,
            (push_while compare f index parent d).1 <> Wrong ->
            push_while compare (n + f) index parent d =
            push_while compare f index parent d).
  { induction n as [|n IHn]; intros f Hf; [done|].
    change (S n + f)%nat with (S (n + f)).
    rewrite push_while_more; [by apply IHn|by rewrite IHn]. }
  intros H1 H2. destruct (Nat.le_ge_cases f1 f2) as [Hle|Hle].
  - replace f2 with ((f2 - f1) + f1)%nat by lia. symmetry. by apply Hup.
  - replace f1 with ((f1 - f2) + f2)%nat by lia. by apply Hup.
Qed.

Lemma pop_while_fuel f1 f2 size parent right left d :
  (pop_while compare f1 size parent right left d).1 <> Wrong ->
  (pop_while compare f2 size parent right left d).1 <> Wrong ->
  pop_while compare f1 size parent right left d =
  pop_while compare f2 size parent right left d.
Proof.
  assert (Hup : forall n f,
            (pop_while compare f size parent right left d).1 <> Wrong ->
            pop_while compare (n + f) size parent right left d =
            pop_while compare f size parent right left d).
  { induction n as [|n IHn]; intros f Hf; [done|].
    change (S n + f)%nat with (S (n + f)).
    rewrite pop_while_more; [by apply IHn|by rewrite IHn]. }
  intros H1 H2. destruct (Nat.le_ge_cases f1 f2) as [Hle|Hle].
  - replace f2 with ((f2 - f1) + f1)%nat by lia. symmetry. by apply Hup.
  - replace f1 with ((f1 - f2) + f2)%nat by lia. by apply Hup.
Qed.

End Iterations.

(** X15: the loops are logarithmic, as the table of the class says.  The
    sift-up loop of [push] started at index [n] ends within
    [log2 (n + 1)] iterations (rounded down), and the sift-down loop of
    [pop] over [size] slots within [log2 size] iterations: allowed only
    that many iterations, each loop ends as it does in [push] and [pop]. *)
Theorem sift_loops_logarithmic {T E} (compare : T -> T -> promise E Z)
    (d : list T) :
  (forall index fuel,
     0 <= index < len d -> Z.log2 (index + 1) <= Z.of_nat fuel ->
     (push_while compare fuel index (getParentIndex index) d).1 <> Wrong /\
     push_while compare fuel index (getParentIndex index) d =
     push_while compare (Z.to_nat index) index (getParentIndex index) d) /\
  (forall size fuel,
     0 <= size <= len d -> Z.log2 size <= Z.of_nat fuel ->
     (pop_while compare fuel size 0 (2 * (0 + 1)) (2 * (0 + 1) - 1) d).1
       <> Wrong /\
     pop_while compare fuel size 0 (2 * (0 + 1)) (2 * (0 + 1) - 1) d =
     pop_while compare (Z.to_nat size) size 0 (2 * (0 + 1)) (2 * (0 + 1) - 1) d).
Proof.
  split.
  - intros index fuel Hi Hfuel.
    pose proof (wp_not_Wrong _ _ _ _
                  (push_while_log compare fuel index d Hi Hfuel)) as H1.
    split; [done|]. apply push_while_fuel; [done|].
    apply (wp_not_Wrong _ _ _ _ (push_while_wp compare (Z.to_nat index) index d Hi ltac:(lia))).
  - intros size fuel Hs Hfuel.
    assert (Hl : Z.log2 size - Z.log2 (0 + 1) <= Z.of_nat fuel).
    { change (Z.log2 (0 + 1)) with 0. lia. }
    pose proof (wp_not_Wrong _ _ _ _
                  (pop_while_log compare fuel size 0 d ltac:(lia) ltac:(lia) Hl))
      as H1.
    split; [done|]. apply pop_while_fuel; [done|].
    apply (wp_not_Wrong _ _ _ _
             (pop_while_wp compare (Z.to_nat size) size 0 d ltac:(lia)
                ltac:(lia) ltac:(lia))).
Qed.

Lemma sift_loops_logarithmic_witness :
  push_while descending 3 7 (getParentIndex 7) [8; 7; 6; 5; 4; 3; 2; 9] =
    (Normal tt, [9; 8; 6; 7; 4; 3; 2; 5]) /\
  pop_while descending 2 7 0 (2 * (0 + 1)) (2 * (0 + 1) - 1)
    [1; 7; 6; 5; 4; 3; 2; 9] = (Normal tt, [7; 5; 6; 1; 4; 3; 2; 9]).
Proof.
  destruct (sift_loops_logarithmic descending [8; 7; 6; 5; 4; 3; 2; 9])
    as [Hpush _].
  destruct (sift_loops_logarithmic descending [1; 7; 6; 5; 4; 3; 2; 9])
    as [_ Hpop].
  split.
  - rewrite (proj2 (Hpush 7 3%nat ltac:(unfold len; simpl; lia)
                      ltac:(simpl; lia))).
    reflexivity.
  - rewrite (proj2 (Hpop 7 2%nat ltac:(unfold len; simpl; lia)
                      ltac:(simpl; lia))).
    reflexivity.
Defined.
